(** * Url-Extractor-WebApp: a shallow embedding of [server.py]

    The development follows the file top to bottom: the prober
    [fetch_status], the dispatcher and aggregator of [check_urls], the
    formatters [generate_csv] and [generate_json], and the handler
    [extract_urls] with its pattern [URL_PATTERN].  The library calls the
    file relies on ([asyncio.Semaphore], [asyncio.gather], [csv.writer],
    [json.dumps], [re.findall], [bytes.decode]) are modelled as far as the
    file uses them; [csv.reader] and [json.loads] are added to state that
    the CSV and the JSON text can be read back.

    Python values are modelled as follows.
    - A [str] is the list of its code points ([pystr]); literals of the
      source are written [py "..."].
    - The second component of a probe result is an [int] or a [str]
      ([status]).
    - A [dict] whose values are lists is an association list in insertion
      order ([dict]): [dict.items()] iterates in that order.
    - [list(set(urls))] is the list of elements of a finite set ([gset]);
      no theorem depends on the order of that list. *)

From Stdlib Require Import ZArith NArith Ascii String Lia.
From stdpp Require Import base option numbers gmap sets list.

Local Open Scope Z_scope.
#[local] Set Warnings "-clear-no-such-hyp".
#[local] Set Warnings "-register-all".

(** ** Strings *)

Definition pystr : Type := list N.

Definition ord (a : ascii) : N := N_of_ascii a.

Fixpoint py (s : string) : pystr :=
  match s with
  | EmptyString => []
  | String a rest => ord a :: py rest
  end.

(** ** Probe results: [fetch_status] (lines 15-26) *)

(** The second component of the pair [fetch_status] returns:
    [response.status] (an [int]) or one of the strings built in the
    [except] clauses. *)
Inductive status : Type :=
  | SInt (n : Z)
  | SStr (s : pystr).

(** A raised exception, as far as the [except] clauses look at it: the
    answers to the three [isinstance] tests and the text [str(e)]. *)
Record exn : Type := mk_exn {
  isinstance_ClientError : bool;   (* aiohttp.ClientError *)
  isinstance_TimeoutError : bool;  (* asyncio.TimeoutError *)
  isinstance_Exception : bool;     (* Exception *)
  str : pystr                      (* str(e) *)
}.

(** How [session.get(url, timeout=5)] ends: with a response carrying a
    status code, or by raising. *)
Inductive request_end : Type :=
  | Response (status_code : Z)
  | Raises (e : exn).

(** How a coroutine ends: it returns a value or an exception leaves it. *)
Inductive completion (A : Type) : Type :=
  | Returns (a : A)
  | Propagates (e : exn).
Arguments Returns {A} a.
Arguments Propagates {A} e.

(** The [try] statement of [fetch_status]: the [except] clauses are tried
    in the order of the source.  Acquiring and releasing the semaphore
    around it is part of the scheduler below. *)
Definition fetch_status (url : pystr) (r : request_end)
  : completion (pystr * status) :=
  match r with
  | Response n => Returns (url, SInt n)
  | Raises e =>
      if isinstance_ClientError e then Returns (url, SStr (py "error"))
      else if isinstance_TimeoutError e then Returns (url, SStr (py "timeout"))
      else if isinstance_Exception e then
        Returns (url, SStr (py "error: " ++ str e))
      else Propagates e
  end.

(** ** The aggregator: the loop of [check_urls] (lines 36-59) *)

Definition dict : Type := list (pystr * list pystr).

(** [d[k]] *)
Fixpoint getitem (d : dict) (k : pystr) : option (list pystr) :=
  match d with
  | [] => None
  | (k', v) :: rest => if decide (k = k') then Some v else getitem rest k
  end.

(** [d[k].append(u)]; [None] is Python's [KeyError]. *)
Fixpoint getitem_append (d : dict) (k u : pystr) : option dict :=
  match d with
  | [] => None
  | (k', v) :: rest =>
      if decide (k = k') then Some ((k', v ++ [u]) :: rest)
      else rest' ← getitem_append rest k u; Some ((k', v) :: rest')
  end.

(** [status == n] for an [int] literal [n]: a [str] never equals an [int]. *)
Definition status_eq_int (st : status) (n : Z) : bool :=
  match st with
  | SInt m => m =? n
  | SStr _ => false
  end.

(** [status in [a, b, ...]] *)
Definition status_in (st : status) (l : list Z) : bool :=
  existsb (status_eq_int st) l.

(** [isinstance(status, int) and status >= n] *)
Definition status_int_ge (st : status) (n : Z) : bool :=
  match st with
  | SInt m => n <=? m
  | SStr _ => false
  end.

(** The key chosen by the [if]/[elif] chain of lines 46-57. *)
Definition bucket_of (st : status) : pystr :=
  if status_eq_int st 200 then py "200"
  else if status_in st [301; 302] then py "301_302"
  else if status_eq_int st 403 then py "403"
  else if status_eq_int st 404 then py "404"
  else if status_int_ge st 500 then py "500+"
  else py "error".

(** The dictionary literal of lines 36-43. *)
Definition status_results0 : dict :=
  [ (py "200", []); (py "301_302", []); (py "403", []); (py "404", []);
    (py "500+", []); (py "error", []) ].

(** [for url, status in results: ...] *)
Fixpoint categorize (results : list (pystr * status)) (status_results : dict)
  : option dict :=
  match results with
  | [] => Some status_results
  | (url, st) :: rest =>
      d ← getitem_append status_results (bucket_of st) url;
      categorize rest d
  end.

(** Lines 35-59 of [check_urls], from the gathered [results] on. *)
Definition aggregate (results : list (pystr * status)) : option dict :=
  categorize results status_results0.

Definition bucket_keys : list pystr :=
  [ py "200"; py "301_302"; py "403"; py "404"; py "500+"; py "error" ].

(** ** The dispatcher: [check_urls], lines 28-33

    [tasks = [fetch_status(session, url, semaphore) for url in urls]]
    creates one coroutine per element of [urls], and
    [asyncio.gather] over these coroutines runs them interleaved on the event loop.  A
    coroutine first waits at [async with semaphore], then holds a slot of
    the semaphore while its request is pending, then leaves the
    [async with] block (which releases the slot on every exit) with the
    completion of the [try] statement. *)

Inductive task : Type :=
  | Waiting (url : pystr)                       (* at [async with semaphore] *)
  | InFlight (url : pystr)                      (* inside [session.get] *)
  | Done (c : completion (pystr * status)).     (* the coroutine has ended *)

(** The state of one batch.  [requests] records the URLs handed to
    [session.get] so far, in the order the requests were issued, and
    [raised] the first exception, in time, that has left a coroutine.
    [sem_value] counts the free slots of the semaphore: its counter, and
    with it any slot that a release has already handed to a waiting
    coroutine that has not gone on yet. *)
Record batch : Type := mk_batch {
  sem_value : nat;          (* the free slots of the semaphore *)
  tasks : list task;
  requests : list pystr;
  raised : option exn
}.

(** [asyncio.Semaphore(10)] *)
Definition concurrency_limit : nat := 10.

Definition start (urls : list pystr) : batch :=
  {| sem_value := concurrency_limit; tasks := Waiting <$> urls; requests := [];
     raised := None |}.

(** What the event loop can do next: let coroutine [i] through the
    semaphore, or deliver to coroutine [i] the end [r] of its request.  Any
    waiting coroutine may be let through when a slot is free: the order in
    which the library serves the waiting coroutines, first come first
    served, is one of the orders the model allows. *)
Inductive event : Type :=
  | Acquire (i : nat)
  | Resolve (i : nat) (r : request_end).

(** The first exception stays the first. *)
Definition note_raised (raised : option exn) (c : completion (pystr * status))
  : option exn :=
  match raised, c with
  | None, Propagates e => Some e
  | _, _ => raised
  end.

Definition step (s : batch) (ev : event) : option batch :=
  match ev with
  | Acquire i =>
      match tasks s !! i, sem_value s with
      | Some (Waiting url), S v =>
          Some {| sem_value := v;
                  tasks := <[i := InFlight url]> (tasks s);
                  requests := requests s ++ [url];
                  raised := raised s |}
      | _, _ => None
      end
  | Resolve i r =>
      match tasks s !! i with
      | Some (InFlight url) =>
          Some {| sem_value := S (sem_value s);
                  tasks := <[i := Done (fetch_status url r)]> (tasks s);
                  requests := requests s;
                  raised := note_raised (raised s) (fetch_status url r) |}
      | _ => None
      end
  end.

Fixpoint run (s : batch) (evs : list event) : option batch :=
  match evs with
  | [] => Some s
  | ev :: rest => s' ← step s ev; run s' rest
  end.

Definition is_in_flight (t : task) : bool :=
  match t with InFlight _ => true | _ => false end.

Definition is_waiting (t : task) : bool :=
  match t with Waiting _ => true | _ => false end.

Definition in_flight (s : batch) : nat := length (filter is_in_flight (tasks s)).

Definition waiting (s : batch) : nat := length (filter is_waiting (tasks s)).

(** [await asyncio.gather(...)]: it raises, with the first exception that
    has left a coroutine, as soon as one has; it returns the list of
    results, in the order of [tasks], once every coroutine has returned;
    and it keeps the caller suspended ([None]) otherwise. *)
Fixpoint all_returned (ts : list task) : option (list (pystr * status)) :=
  match ts with
  | [] => Some []
  | Done (Returns r) :: rest => rs ← all_returned rest; Some (r :: rs)
  | _ :: _ => None
  end.

Definition gather (s : batch) : option (completion (list (pystr * status))) :=
  match raised s with
  | Some e => Some (Propagates e)
  | None => Returns <$> all_returned (tasks s)
  end.

(** A request end that one of the [except] clauses of [fetch_status]
    handles: a response, or an exception of class [Exception]. *)
Definition handled (r : request_end) : bool :=
  match r with
  | Response _ => true
  | Raises e =>
      isinstance_ClientError e || isinstance_TimeoutError e
      || isinstance_Exception e
  end.

Definition event_handled (ev : event) : bool :=
  match ev with
  | Acquire _ => true
  | Resolve _ r => handled r
  end.

(** Lines 28-59 as a whole: the report [check_urls] returns when the event
    loop runs the schedule [evs] to the end of [gather]. *)
Definition check_urls (urls : list pystr) (evs : list event)
  : option (completion dict) :=
  s ← run (start urls) evs;
  g ← gather s;
  match g with
  | Returns results => Returns <$> aggregate results
  | Propagates e => Some (Propagates e)
  end.

(** ** Deduplication in [extract_urls] (lines 96-102) *)

(** [unique_urls = list(set(urls))] *)
Definition unique_urls (urls : list pystr) : list pystr :=
  elements (list_to_set urls : gset pystr).

(** ** [generate_csv] (lines 61-69) *)

(** [sep.join(l)] *)
Fixpoint join (sep : pystr) (l : list pystr) : pystr :=
  match l with
  | [] => []
  | [x] => x
  | x :: rest => x ++ sep ++ join sep rest
  end.

(** [csv.writer(output)] writes in the [excel] dialect: the comma as
    delimiter, the double quote (code 34) as quote character, minimal
    quoting, doubled quotes inside a quoted field, and the line terminator
    CR LF. *)
Definition csv_delimiter : N := ord ",".
Definition csv_quotechar : N := 34%N.
Definition csv_lineterminator : pystr := [13%N; 10%N].

(** A character that makes the writer quote the field it occurs in. *)
Definition csv_special (c : N) : bool :=
  (c =? csv_delimiter)%N || (c =? csv_quotechar)%N
  || bool_decide (c ∈ csv_lineterminator).

Definition csv_double_quote (c : N) : pystr :=
  if (c =? csv_quotechar)%N then [csv_quotechar; c] else [c].

Definition csv_field (f : pystr) : pystr :=
  if existsb csv_special f
  then [csv_quotechar] ++ flat_map csv_double_quote f ++ [csv_quotechar]
  else f.

(** The text of one record, without its terminator; a lone empty field is
    written as two quote characters. *)
Definition csv_record (row : list pystr) : pystr :=
  match row with
  | [ [] ] => [csv_quotechar; csv_quotechar]
  | _ => join [csv_delimiter] (csv_field <$> row)
  end.

(** [writer.writerow(row)], on the contents of the [StringIO] buffer. *)
Definition writerow (output : pystr) (row : list pystr) : pystr :=
  output ++ csv_record row ++ csv_lineterminator.

Definition generate_csv (data : dict) : pystr :=
  let output := [] in
  let output := writerow output [py "URL"; py "Status"] in
  fold_left
    (fun output '(status, urls) =>
       fold_left (fun output url => writerow output [url; status]) urls output)
    data output.

(** The rows of the table the CSV text stands for: one row [url; status]
    per URL of [data], bucket by bucket. *)
Definition csv_rows (data : dict) : list (list pystr) :=
  flat_map (fun '(status, urls) => (fun url => [url; status]) <$> urls) data.

(** ** Reading the CSV text back: [csv.reader(StringIO(text))]

    [generate_csv] returns the contents of a [StringIO] that [csv.writer]
    has filled.  What rows that text holds is what [csv.reader] makes of
    it, in the same [excel] dialect: the reader takes the lines of the
    text one after the other and runs every character of a line, and then
    the end of the line, through the state machine of
    [parse_process_char] in [_csv.c].  The dialect has no escape
    character, does not skip initial spaces and is not strict, so the
    states and branches for these are left out. *)

Inductive ParserState : Type :=
  | START_RECORD | START_FIELD | IN_FIELD | IN_QUOTED_FIELD
  | QUOTE_IN_QUOTED_FIELD | EAT_CRNL.

#[global] Instance ParserState_eq_dec : EqDecision ParserState.
Proof. solve_decision. Defined.

Record ReaderObj : Type := mk_reader {
  state : ParserState;
  fields : list pystr;      (* the fields of the record read so far *)
  field : pystr             (* the field that is being read *)
}.

(** [csv.field_size_limit()] *)
Definition field_limit : N := 131072.

Definition parse_reset : ReaderObj :=
  {| state := START_RECORD; fields := []; field := [] |}.

Definition set_state (st : ParserState) (self : ReaderObj) : ReaderObj :=
  {| state := st; fields := fields self; field := field self |}.

Definition parse_save_field (self : ReaderObj) : ReaderObj :=
  {| state := state self; fields := fields self ++ [field self]; field := [] |}.

(** [None] is the error [field larger than field limit]. *)
Definition parse_add_char (self : ReaderObj) (c : N) : option ReaderObj :=
  if (field_limit <=? N.of_nat (length (field self)))%N then None
  else Some {| state := state self; fields := fields self; field := field self ++ [c] |}.

(** What the reader is given: a character of the line, or the end of the
    line. *)
Inductive reader_input : Type :=
  | Char (c : N)
  | EOL.

(** [c == '\n' || c == '\r'] *)
Definition is_newline (c : N) : bool := (c =? 10)%N || (c =? 13)%N.

(** The end of a record: a newline character or the end of the line. *)
Definition after_record (c : reader_input) : ParserState :=
  match c with EOL => START_RECORD | Char _ => EAT_CRNL end.

(** The case [START_FIELD], which the case [START_RECORD] falls through
    to. *)
Definition parse_start_field (self : ReaderObj) (c : reader_input)
  : option ReaderObj :=
  match c with
  | EOL => Some (set_state START_RECORD (parse_save_field self))
  | Char ch =>
      if is_newline ch then Some (set_state EAT_CRNL (parse_save_field self))
      else if (ch =? csv_quotechar)%N then Some (set_state IN_QUOTED_FIELD self)
      else if (ch =? csv_delimiter)%N then Some (parse_save_field self)
      else set_state IN_FIELD <$> parse_add_char self ch
  end.

(** [None] is an error of the reader. *)
Definition parse_process_char (self : ReaderObj) (c : reader_input)
  : option ReaderObj :=
  match state self with
  | START_RECORD =>
      match c with
      | EOL => Some self
      | Char ch =>
          if is_newline ch then Some (set_state EAT_CRNL self)
          else parse_start_field (set_state START_FIELD self) c
      end
  | START_FIELD => parse_start_field self c
  | IN_FIELD =>
      match c with
      | EOL => Some (set_state START_RECORD (parse_save_field self))
      | Char ch =>
          if is_newline ch then Some (set_state EAT_CRNL (parse_save_field self))
          else if (ch =? csv_delimiter)%N
          then Some (set_state START_FIELD (parse_save_field self))
          else parse_add_char self ch
      end
  | IN_QUOTED_FIELD =>
      match c with
      | EOL => Some self
      | Char ch =>
          if (ch =? csv_quotechar)%N then Some (set_state QUOTE_IN_QUOTED_FIELD self)
          else parse_add_char self ch
      end
  | QUOTE_IN_QUOTED_FIELD =>
      match c with
      | EOL => Some (set_state START_RECORD (parse_save_field self))
      | Char ch =>
          if (ch =? csv_quotechar)%N
          then set_state IN_QUOTED_FIELD <$> parse_add_char self ch
          else if (ch =? csv_delimiter)%N
          then Some (set_state START_FIELD (parse_save_field self))
          else if is_newline ch
          then Some (set_state EAT_CRNL (parse_save_field self))
          else set_state IN_FIELD <$> parse_add_char self ch
      end
  | EAT_CRNL =>
      match c with
      | EOL => Some (set_state START_RECORD self)
      | Char ch => if is_newline ch then Some self else None
      end
  end.

(** The characters of a line, one after the other. *)
Fixpoint parse_chars (self : ReaderObj) (line : pystr) : option ReaderObj :=
  match line with
  | [] => Some self
  | c :: rest => self ← parse_process_char self (Char c); parse_chars self rest
  end.

(** A whole line, with its end. *)
Definition parse_line (self : ReaderObj) (line : pystr) : option ReaderObj :=
  self ← parse_chars self line; parse_process_char self EOL.

(** The records the reader yields from [lines] on, [self] holding what it
    has read of the record it is in ([Reader_iternext], called until the
    input is exhausted): a record is complete when a line leaves the
    reader in the state [START_RECORD]; when the lines end inside a record,
    what has been read of it is the last record. *)
Fixpoint Reader_records (self : ReaderObj) (lines : list pystr)
  : option (list (list pystr)) :=
  match lines with
  | [] =>
      if negb (bool_decide (field self = []))
         || bool_decide (state self = IN_QUOTED_FIELD)
      then Some [fields (parse_save_field self)]
      else Some []
  | line :: rest =>
      self ← parse_line self line;
      if bool_decide (state self = START_RECORD)
      then cons (fields self) <$> Reader_records parse_reset rest
      else Reader_records self rest
  end.

(** The lines of a [StringIO] over [s]: each ends after a line feed, the
    last one at the end of the text; [line] holds the line begun. *)
Fixpoint readlines_from (line : pystr) (s : pystr) : list pystr :=
  match s with
  | [] => match line with [] => [] | _ => [line] end
  | c :: rest =>
      if (c =? 10)%N then (line ++ [c]) :: readlines_from [] rest
      else readlines_from (line ++ [c]) rest
  end.

Definition readlines (s : pystr) : list pystr := readlines_from [] s.

(** [list(csv.reader(StringIO(text)))] *)
Definition csv_reader (text : pystr) : option (list (list pystr)) :=
  Reader_records parse_reset (readlines text).

(** ** [generate_json] (lines 71-73)

    [json.dumps(data, indent=4)] for a dictionary with [str] keys and lists
    of [str] as values, in the default settings: [ensure_ascii=True], a
    comma as item separator, a colon and a space as key separator. *)

Definition hex_digit (d : N) : N :=
  (if d <? 10 then ord "0" + d else ord "a" + (d - 10))%N.

(** ['{0:04x}'.format(n)] for [n < 0x10000] *)
Definition hex4 (n : N) : pystr :=
  [ hex_digit (n / 4096 mod 16); hex_digit (n / 256 mod 16);
    hex_digit (n / 16 mod 16); hex_digit (n mod 16) ]%N.

Definition backslash : N := 92%N.
Definition dquote : N := 34%N.

(** The replacement of one character by [encode_basestring_ascii]:
    backslash, the quote and every character outside [' '..'~'] are
    escaped; a character above the basic plane becomes a surrogate pair. *)
Definition escape_char (c : N) : pystr :=
  (if c =? backslash then [backslash; backslash]
   else if c =? dquote then [backslash; dquote]
   else if c =? 8 then [backslash; ord "b"]
   else if c =? 12 then [backslash; ord "f"]
   else if c =? 10 then [backslash; ord "n"]
   else if c =? 13 then [backslash; ord "r"]
   else if c =? 9 then [backslash; ord "t"]
   else if (32 <=? c) && (c <=? 126) then [c]
   else if c <? 0x10000 then [backslash; ord "u"] ++ hex4 c
   else
     let n := c - 0x10000 in
     let s1 := N.lor 0xd800 (N.land (N.shiftr n 10) 0x3ff) in
     let s2 := N.lor 0xdc00 (N.land n 0x3ff) in
     [backslash; ord "u"] ++ hex4 s1 ++ [backslash; ord "u"] ++ hex4 s2)%N.

Definition encode_basestring_ascii (s : pystr) : pystr :=
  [dquote] ++ flat_map escape_char s ++ [dquote].

(** ['\n' + _indent * _current_indent_level] with [_indent = ' ' * 4] *)
Definition newline_indent (level : nat) : pystr :=
  [10%N] ++ concat (replicate level (py "    ")).

(** [_iterencode_list] on a list of strings *)
Definition iterencode_list (lst : list pystr) (level : nat) : pystr :=
  match lst with
  | [] => py "[]"
  | _ =>
      py "[" ++ newline_indent (S level)
      ++ join (py "," ++ newline_indent (S level))
           (encode_basestring_ascii <$> lst)
      ++ newline_indent level ++ py "]"
  end.

(** [_iterencode_dict] on a dictionary of lists of strings *)
Definition iterencode_dict (dct : dict) (level : nat) : pystr :=
  match dct with
  | [] => py "{}"
  | _ =>
      py "{" ++ newline_indent (S level)
      ++ join (py "," ++ newline_indent (S level))
           ((fun '(key, value) =>
               encode_basestring_ascii key ++ py ": "
               ++ iterencode_list value (S level)) <$> dct)
      ++ newline_indent level ++ py "}"
  end.

Definition generate_json (data : dict) : pystr := iterencode_dict data 0.

(** ** Reading JSON back: [json.loads]

    The reader of the same [json] package, for texts made of objects,
    arrays and strings; on any other value (numbers, [true], [false],
    [null]) this model gives [None], as it does where the package raises
    [JSONDecodeError]. *)

Inductive jvalue : Type :=
  | JString (s : pystr)
  | JList (l : list jvalue)
  | JDict (d : list (pystr * jvalue)).

(** The whitespace of the decoder: space, tab, line feed, carriage return. *)
Definition is_ws (c : N) : bool :=
  ((c =? 32) || (c =? 9) || (c =? 10) || (c =? 13))%N.

Fixpoint skip_ws (s : pystr) : pystr :=
  match s with
  | c :: rest => if is_ws c then skip_ws rest else s
  | [] => []
  end.

(** The value of one hexadecimal digit. *)
Definition hex_value (c : N) : option N :=
  (if (48 <=? c) && (c <=? 57) then Some (c - 48)
   else if (97 <=? c) && (c <=? 102) then Some (c - 87)
   else if (65 <=? c) && (c <=? 70) then Some (c - 55)
   else None)%N.

(** [_decode_uXXXX] on the four characters after [\u] *)
Definition decode_uXXXX (a b c d : N) : option N :=
  x3 ← hex_value a; x2 ← hex_value b; x1 ← hex_value c; x0 ← hex_value d;
  Some (x3 * 4096 + x2 * 256 + x1 * 16 + x0)%N.

(** The table [BACKSLASH] of the decoder. *)
Definition unescape (esc : N) : option N :=
  (if esc =? dquote then Some dquote
   else if esc =? backslash then Some backslash
   else if esc =? ord "/" then Some (ord "/")
   else if esc =? ord "b" then Some 8
   else if esc =? ord "f" then Some 12
   else if esc =? ord "n" then Some 10
   else if esc =? ord "r" then Some 13
   else if esc =? ord "t" then Some 9
   else None)%N.

Definition is_high_surrogate (u : N) : bool := ((0xd800 <=? u) && (u <=? 0xdbff))%N.
Definition is_low_surrogate (u : N) : bool := ((0xdc00 <=? u) && (u <=? 0xdfff))%N.

Definition join_surrogates (uni uni2 : N) : N :=
  (0x10000 + N.lor (N.shiftl (uni - 0xd800) 10) (uni2 - 0xdc00))%N.

Definition cons_char (c : N) (r : option (pystr * pystr)) : option (pystr * pystr) :=
  '(str, rest) ← r; Some (c :: str, rest).

(** [scanstring] in strict mode, started after the opening quote: the
    string read and the text after its closing quote. *)
Fixpoint scanstring (s : pystr) : option (pystr * pystr) :=
  match s with
  | [] => None
  | c :: s1 =>
      if (c =? dquote)%N then Some ([], s1)
      else if (c =? backslash)%N then
        match s1 with
        | [] => None
        | esc :: s2 =>
            if (esc =? ord "u")%N then
              match s2 with
              | h1 :: h2 :: h3 :: h4 :: s6 =>
                  match decode_uXXXX h1 h2 h3 h4 with
                  | None => None
                  | Some uni =>
                      match s6 with
                      | b :: u :: g1 :: g2 :: g3 :: g4 :: s12 =>
                          if is_high_surrogate uni && (b =? backslash)%N
                             && (u =? ord "u")%N
                          then
                            match decode_uXXXX g1 g2 g3 g4 with
                            | None => None
                            | Some uni2 =>
                                if is_low_surrogate uni2
                                then cons_char (join_surrogates uni uni2)
                                       (scanstring s12)
                                else cons_char uni (scanstring s6)
                            end
                          else cons_char uni (scanstring s6)
                      | b :: u :: _ =>
                          if is_high_surrogate uni && (b =? backslash)%N
                             && (u =? ord "u")%N
                          then None
                          else cons_char uni (scanstring s6)
                      | _ => cons_char uni (scanstring s6)
                      end
                  end
              | _ => None
              end
            else
              match unescape esc with
              | Some ch => cons_char ch (scanstring s2)
              | None => None
              end
        end
      else if (c <? 32)%N then None
      else cons_char c (scanstring s1)
  end.

(** [scan_once] with the loops of [JSONArray] and [JSONObject].  [fuel]
    bounds the number of nested calls; [json_loads] starts it from the
    length of the text. *)
Fixpoint scan_once (fuel : nat) (s : pystr) : option (jvalue * pystr) :=
  match fuel with
  | O => None
  | S fuel =>
      match s with
      | [] => None
      | c :: s1 =>
          if (c =? dquote)%N then
            '(str, rest) ← scanstring s1; Some (JString str, rest)
          else if (c =? ord "[")%N then
            match skip_ws s1 with
            | c1 :: s2 =>
                if (c1 =? ord "]")%N then Some (JList [], s2)
                else '(values, rest) ← array_loop fuel (c1 :: s2);
                     Some (JList values, rest)
            | [] => None
            end
          else if (c =? ord "{")%N then
            match skip_ws s1 with
            | c1 :: s2 =>
                if (c1 =? ord "}")%N then Some (JDict [], s2)
                else if (c1 =? dquote)%N then
                  '(pairs, rest) ← object_loop fuel s2;
                  Some (JDict pairs, rest)
                else None
            | [] => None
            end
          else None
      end
  end
with array_loop (fuel : nat) (s : pystr) : option (list jvalue * pystr) :=
  match fuel with
  | O => None
  | S fuel =>
      '(value, s1) ← scan_once fuel s;
      match skip_ws s1 with
      | c :: s2 =>
          if (c =? ord "]")%N then Some ([value], s2)
          else if (c =? ord ",")%N then
            '(values, rest) ← array_loop fuel (skip_ws s2);
            Some (value :: values, rest)
          else None
      | [] => None
      end
  end
with object_loop (fuel : nat) (s : pystr)
  : option (list (pystr * jvalue) * pystr) :=
  match fuel with
  | O => None
  | S fuel =>
      '(key, s1) ← scanstring s;
      match skip_ws s1 with
      | c :: s2 =>
          if (c =? ord ":")%N then
            '(value, s3) ← scan_once fuel (skip_ws s2);
            match skip_ws s3 with
            | c1 :: s4 =>
                if (c1 =? ord "}")%N then Some ([(key, value)], s4)
                else if (c1 =? ord ",")%N then
                  match skip_ws s4 with
                  | c2 :: s5 =>
                      if (c2 =? dquote)%N then
                        '(pairs, rest) ← object_loop fuel s5;
                        Some ((key, value) :: pairs, rest)
                      else None
                  | [] => None
                  end
                else None
            | [] => None
            end
          else None
      | [] => None
      end
  end.

(** [d[k] = v] on an insertion-ordered dictionary *)
Fixpoint setitem {V : Type} (d : list (pystr * V)) (k : pystr) (v : V)
  : list (pystr * V) :=
  match d with
  | [] => [(k, v)]
  | (k', v') :: rest =>
      if decide (k = k') then (k', v) :: rest else (k', v') :: setitem rest k v
  end.

(** [dict(pairs)] *)
Definition dict_of_pairs {V : Type} (pairs : list (pystr * V)) : list (pystr * V) :=
  fold_left (fun d '(k, v) => setitem d k v) pairs [].

(** The decoder builds every object with [dict(pairs)]. *)
Fixpoint build (v : jvalue) : jvalue :=
  match v with
  | JString s => JString s
  | JList l => JList (build <$> l)
  | JDict d => JDict (dict_of_pairs ((fun p => (p.1, build p.2)) <$> d))
  end.

(** [json.loads(text)]: one value, surrounded by optional whitespace. *)
Definition json_loads (text : pystr) : option jvalue :=
  let s := skip_ws text in
  '(v, rest) ← scan_once (S (length s)) s;
  match skip_ws rest with
  | [] => Some (build v)
  | _ :: _ => None
  end.

(** A report as the Python value it is: a dictionary of lists of strings. *)
Definition value_of_report (data : dict) : jvalue :=
  JDict ((fun '(key, urls) => (key, JList (JString <$> urls))) <$> data).

(** Code points that decoding UTF-8 text yields: below 0x110000 and not
    a surrogate. *)
Definition scalar_value (c : N) : Prop :=
  (c < 0xd800 \/ 0xe000 <= c < 0x110000)%N.

Definition text (s : pystr) : Prop := Forall scalar_value s.

(** ** The outcomes of the specification

    The specification names the results of a probe [StatusCode(n)],
    [Timeout] and [NetworkError(detail)].  [outcome_of] reads a status
    value of the code as such an outcome: the detail of a network error is
    what follows the prefix [error: ], and is empty for the bare string
    [error]. *)

Inductive Outcome : Type :=
  | StatusCode (n : Z)
  | Timeout
  | NetworkError (detail : pystr).

Fixpoint strip_prefix (p s : pystr) : option pystr :=
  match p, s with
  | [], _ => Some s
  | a :: p', b :: s' => if decide (a = b) then strip_prefix p' s' else None
  | _ :: _, [] => None
  end.

Definition outcome_of (st : status) : Outcome :=
  match st with
  | SInt n => StatusCode n
  | SStr s =>
      if decide (s = py "timeout") then Timeout
      else NetworkError (default [] (strip_prefix (py "error: ") s))
  end.

(** The bucketing table of the specification, row by row. *)
Definition spec_bucket (o : Outcome) : pystr :=
  match o with
  | StatusCode n =>
      if decide (n = 200) then py "200"
      else if decide (n = 301 \/ n = 302) then py "301_302"
      else if decide (n = 403) then py "403"
      else if decide (n = 404) then py "404"
      else if decide (n >= 500) then py "500+"
      else py "error"
  | Timeout => py "error"
  | NetworkError _ => py "error"
  end.

(** The URLs of the results that the table sends to bucket [b], in the
    order of [results]. *)
Definition urls_for (b : pystr) (results : list (pystr * status)) : list pystr :=
  fst <$> filter (fun r => spec_bucket (outcome_of r.2) = b) results.

(** ** URL extraction: [URL_PATTERN] and [re.findall] (lines 13, 94)

    The pattern is [https?://C+|www\.C+], where the class [C] is every
    character but whitespace, the two angle brackets and the double
    quote. *)

(** The characters the class [\s] matches in a [str] pattern. *)
Definition is_space (c : N) : bool :=
  ((9 <=? c) && (c <=? 13) || (0x1c <=? c) && (c <=? 0x20)
   || (c =? 0x85) || (c =? 0xa0) || (c =? 0x1680)
   || (0x2000 <=? c) && (c <=? 0x200a)
   || (c =? 0x2028) || (c =? 0x2029) || (c =? 0x202f) || (c =? 0x205f)
   || (c =? 0x3000))%N.

(** The class [C] of the pattern. *)
Definition url_char (c : N) : bool :=
  negb (is_space c || (c =? ord "<")%N || (c =? ord ">")%N || (c =? dquote)%N).

(** A matcher tries a piece of the pattern at the start of a text and
    gives the text matched and the text left. *)
Definition matcher : Type := pystr -> option (pystr * pystr).

(** A literal string. *)
Definition re_lit (p : pystr) : matcher :=
  fun s => rest ← strip_prefix p s; Some (p, rest).

(** One piece after the other. *)
Definition re_seq (m1 m2 : matcher) : matcher :=
  fun s => '(a, s1) ← m1 s; '(b, s2) ← m2 s1; Some (a ++ b, s2).

(** Alternatives, tried from left to right. *)
Definition re_alt (m1 m2 : matcher) : matcher :=
  fun s => match m1 s with Some r => Some r | None => m2 s end.

(** The longest prefix of characters that satisfy [P], and the rest. *)
Fixpoint span (P : N -> bool) (s : pystr) : pystr * pystr :=
  match s with
  | c :: rest =>
      if P c then let '(run, s') := span P rest in (c :: run, s') else ([], s)
  | [] => ([], [])
  end.

(** A greedy [+] over a character class, at the end of an alternative: as
    many characters as possible, at least one. *)
Definition re_plus (P : N -> bool) : matcher :=
  fun s => match span P s with
           | ([], _) => None
           | (run, rest) => Some (run, rest)
           end.

(** [URL_PATTERN], with the optional [s] written out as the two ways the
    matcher tries it: with the [s] first, then without. *)
Definition URL_PATTERN : matcher :=
  re_alt
    (re_seq (re_lit (py "http"))
       (re_alt (re_seq (re_lit (py "s")) (re_seq (re_lit (py "://")) (re_plus url_char)))
               (re_seq (re_lit (py "://")) (re_plus url_char))))
    (re_seq (re_lit (py "www.")) (re_plus url_char)).

(** The scan of [re.findall]: at each position from the left the pattern
    is tried; a match is recorded and the scan goes on after it ([skip]
    counts the characters of the match still to pass), otherwise it moves
    one character on.  The pattern never matches the empty string. *)
Fixpoint findall_from (skip : nat) (s : pystr) : list pystr :=
  match s with
  | [] => []
  | c :: rest =>
      match skip with
      | S k => findall_from k rest
      | O =>
          match URL_PATTERN s with
          | Some (m, _) => m :: findall_from (length m - 1) rest
          | None => findall_from 0 rest
          end
      end
  end.

(** [re.findall(URL_PATTERN, text)] *)
Definition findall (text : pystr) : list pystr := findall_from 0 text.

(** ** Reading an upload: [file.read().decode("utf-8")] (line 93)

    Bytes are numbers below 256.  The strict UTF-8 decoder accepts the
    shortest encoding of every code point up to 0x10FFFF except the
    surrogates; [None] is [UnicodeDecodeError]. *)

Definition is_continuation (b : N) : bool := ((0x80 <=? b) && (b <=? 0xbf))%N.

Fixpoint utf8_decode (bs : list N) : option pystr :=
  match bs with
  | [] => Some []
  | b0 :: r0 =>
      if (b0 <? 0x80)%N then cons b0 <$> utf8_decode r0
      else if ((0xc2 <=? b0) && (b0 <=? 0xdf))%N then
        match r0 with
        | b1 :: r1 =>
            if is_continuation b1
            then cons ((b0 - 0xc0) * 64 + (b1 - 0x80))%N <$> utf8_decode r1
            else None
        | _ => None
        end
      else if ((0xe0 <=? b0) && (b0 <=? 0xef))%N then
        match r0 with
        | b1 :: b2 :: r2 =>
            if ((if b0 =? 0xe0 then 0xa0 else 0x80) <=? b1)%N
               && (b1 <=? (if b0 =? 0xed then 0x9f else 0xbf))%N
               && is_continuation b2
            then cons ((b0 - 0xe0) * 4096 + (b1 - 0x80) * 64 + (b2 - 0x80))%N
                   <$> utf8_decode r2
            else None
        | _ => None
        end
      else if ((0xf0 <=? b0) && (b0 <=? 0xf4))%N then
        match r0 with
        | b1 :: b2 :: b3 :: r3 =>
            if ((if b0 =? 0xf0 then 0x90 else 0x80) <=? b1)%N
               && (b1 <=? (if b0 =? 0xf4 then 0x8f else 0xbf))%N
               && is_continuation b2 && is_continuation b3
            then cons ((b0 - 0xf0) * 262144 + (b1 - 0x80) * 4096
                       + (b2 - 0x80) * 64 + (b3 - 0x80))%N
                   <$> utf8_decode r3
            else None
        | _ => None
        end
      else None
  end.

(** ** The request handler [extract_urls] (lines 80-114) *)

(** One uploaded file: its [filename] and the bytes [file.read()] gives. *)
Record FileStorage : Type := mk_file {
  filename : pystr;
  content : list N
}.

(** [request.files]: the uploaded files with the form field each came
    under, in the order of the request. *)
Definition MultiDict : Type := list (pystr * FileStorage).

(** [key in d] *)
Definition contains (d : MultiDict) (key : pystr) : bool :=
  existsb (fun p => bool_decide (p.1 = key)) d.

(** [d.getlist(key)] *)
Definition getlist (d : MultiDict) (key : pystr) : list FileStorage :=
  snd <$> filter (fun p => p.1 = key) d.

(** The loop of lines 91-94: [None] when a file is not valid UTF-8. *)
Fixpoint read_urls (files : list FileStorage) : option (list pystr) :=
  match files with
  | [] => Some []
  | file :: rest =>
      text ← utf8_decode (content file);
      urls ← read_urls rest;
      Some (findall text ++ urls)
  end.

(** The object handed to [jsonify] on success. *)
Record extraction : Type := mk_extraction {
  resp_urls : list pystr;
  resp_unique_urls : list pystr;
  resp_status_results : dict;
  resp_csv_data : pystr;
  resp_json_data : pystr
}.

(** What the handler answers: a 400 with an error message, the 200 with
    the extraction, or an exception that leaves the handler. *)
Inductive http_response : Type :=
  | BadRequest (error : pystr)
  | Ok (body : extraction)
  | UnicodeDecodeError
  | Uncaught (e : exn).

(** The handler, for the uploaded files [files] and the schedule [evs] of
    the event loop that [run_until_complete] drives; [None] when [evs]
    stops before [check_urls] has ended. *)
Definition extract_urls (files : MultiDict) (evs : list event)
  : option http_response :=
  if negb (contains files (py "files")) then
    Some (BadRequest (py "No file uploaded"))
  else
    let files := getlist files (py "files") in
    if bool_decide (files = [])
       || forallb (fun file => bool_decide (filename file = [])) files
    then Some (BadRequest (py "No selected file"))
    else
      match read_urls files with
      | None => Some UnicodeDecodeError
      | Some urls =>
          let unique_urls := unique_urls urls in
          c ← check_urls unique_urls evs;
          match c with
          | Propagates e => Some (Uncaught e)
          | Returns status_results =>
              let csv_data := generate_csv status_results in
              let json_data := generate_json status_results in
              Some (Ok {| resp_urls := urls;
                          resp_unique_urls := unique_urls;
                          resp_status_results := status_results;
                          resp_csv_data := csv_data;
                          resp_json_data := json_data |})
          end
      end.

(** ** Auxiliary definitions

    Notions the statements below are phrased with: the two failures used
    as examples, the invariant of the dispatcher, and names for the parts
    of the CSV and JSON texts. *)

(** A refused connection and a failed name resolution, as [aiohttp] raises
    them: both are [ClientError]s, with different texts. *)
Definition connection_refused : exn :=
  mk_exn true false true (py "Cannot connect to host a.example:80").

(** See [connection_refused]. *)
Definition dns_failure : exn :=
  mk_exn true false true (py "Name or service not known").

(** The effect of [d[k].append(u)] on a dictionary that has the key. *)
Definition appended (k u : pystr) (entry : pystr * list pystr) : pystr * list pystr :=
  (entry.1, if decide (entry.1 = k) then entry.2 ++ [u] else entry.2).

(** The exception of a coroutine of [ts] that has ended with one, if
    there is any: that of the one at the lowest position. *)
Fixpoint raised_in (ts : list task) : option exn :=
  match ts with
  | [] => None
  | Done (Propagates e) :: _ => Some e
  | _ :: rest => raised_in rest
  end.

(** The coroutine [t] has ended with an exception. *)
Definition is_raised (t : task) : bool :=
  match t with Done (Propagates _) => true | _ => false end.

(** The coroutine [t] is the one created for [url]. *)
Definition task_for (url : pystr) (t : task) : Prop :=
  match t with
  | Waiting u | InFlight u | Done (Returns (u, _)) => u = url
  | Done (Propagates _) => True
  end.

(** The URLs of the coroutines that have not issued their request yet. *)
Definition pending_urls (ts : list task) : list pystr :=
  omap (fun t => match t with Waiting u => Some u | _ => None end) ts.

(** The number of tasks that satisfy [P]. *)
Definition count (P : task -> bool) (ts : list task) : nat :=
  length (filter P ts).

(** What holds of every state a batch for [urls] reaches after [n] events. *)
Record invariant (urls : list pystr) (n : nat) (s : batch) : Prop := {
  inv_sem : (sem_value s + in_flight s = concurrency_limit)%nat;
  inv_tasks : Forall2 task_for urls (tasks s);
  inv_requests : requests s ++ pending_urls (tasks s) ≡ₚ urls;
  inv_events : (n + 2 * waiting s + in_flight s = 2 * length urls)%nat;
  inv_raised : raised s = None <-> raised_in (tasks s) = None
}.

(** One record of the CSV text with its line terminator. *)
Definition csv_line (row : list pystr) : pystr :=
  csv_record row ++ csv_lineterminator.

(** The text between the brackets of a non-empty list. *)
Definition items (lst : list pystr) (level : nat) : pystr :=
  join (py "," ++ newline_indent (S level)) (encode_basestring_ascii <$> lst).

(** One member of an object, after the opening quote of its key. *)
Definition member_body (key : pystr) (value : list pystr) (level : nat) : pystr :=
  flat_map escape_char key ++ [dquote] ++ py ": " ++ iterencode_list value (S level).

(** The members after the first, each with the separator before it. *)
Definition more_members (dct : dict) (level : nat) : pystr :=
  concat ((fun '(key, value) =>
             py "," ++ newline_indent (S level)
             ++ dquote :: member_body key value level) <$> dct).

(** The text between the braces of a non-empty object. *)
Definition members (dct : dict) (level : nat) : pystr :=
  join (py "," ++ newline_indent (S level))
    ((fun '(key, value) =>
        encode_basestring_ascii key ++ py ": "
        ++ iterencode_list value (S level)) <$> dct).

(** Every key and every URL of the report is text. *)
Definition report_text (dct : dict) : Prop :=
  Forall (fun entry => text entry.1 /\ Forall text entry.2) dct.

(** The members of [value_of_report]. *)
Definition report_pairs (dct : dict) : list (pystr * jvalue) :=
  (fun '(key, urls) => (key, JList (JString <$> urls))) <$> dct.

(** The text is at its end or goes on with a character outside the class
    of the pattern. *)
Definition stops (s : pystr) : Prop :=
  match s with
  | [] => True
  | c :: _ => url_char c = false
  end.

(** The three ways a match of the pattern can begin. *)
Definition url_prefixes : list pystr := [py "http://"; py "https://"; py "www."].

(** A text that one of the prefixes begins and that goes on with at least
    one character of the class, and with such characters only. *)
Definition url_shaped (m : pystr) : Prop :=
  exists prefix body,
    prefix ∈ url_prefixes /\ m = prefix ++ body /\ body <> [] /\
    Forall (fun c => url_char c = true) body.

(** Matches and the texts between them, put back together. *)
Fixpoint weave (pieces : list (pystr * pystr)) : pystr :=
  match pieces with
  | [] => []
  | (m, gap) :: rest => m ++ gap ++ weave rest
  end.

(** After every match the text stops. *)
Fixpoint delimited (pieces : list (pystr * pystr)) : Prop :=
  match pieces with
  | [] => True
  | (m, gap) :: rest => stops (gap ++ weave rest) /\ delimited rest
  end.

(** How often the character [c] occurs in [s]. *)
Definition count_char (c : N) (s : list N) : nat := length (filter (fun x => x = c) s).

(** No line feed occurs in a key or in a URL of the report. *)
Definition single_line (data : dict) : Prop :=
  Forall (fun entry => (10%N ∉ entry.1) /\ Forall (fun url => 10%N ∉ url) entry.2) data.

(** The reader run over the text itself: the end of a line is met after
    every line feed, and at the end of the text when a line is begun
    ([open]). *)
Fixpoint scan (self : ReaderObj) (open : bool) (s : pystr)
  : option (list (list pystr)) :=
  match s with
  | [] => Reader_records self (if open then [[]] else [])
  | c :: rest =>
      self ← parse_process_char self (Char c);
      if (c =? 10)%N then
        self ← parse_process_char self EOL;
        if bool_decide (state self = START_RECORD)
        then cons (fields self) <$> scan parse_reset false rest
        else scan self false rest
      else scan self true rest
  end.

(** No key and no URL of the report is longer than the reader's limit. *)
Definition within_field_limit (data : dict) : Prop :=
  Forall (fun entry =>
            (N.of_nat (length entry.1) <= field_limit)%N /\
            Forall (fun url => (N.of_nat (length url) <= field_limit)%N) entry.2)
    data.

(** A line feed or a printable ASCII character. *)
Definition json_ascii (c : N) : Prop := (c = 10 \/ (32 <= c /\ c <= 126))%N.

(** An upload of one file that mentions one URL, the schedule of its
    batch, and the body of the answer. *)
Definition example_upload : MultiDict :=
  [(py "files", mk_file (py "a.txt") (py "see http://a.example/x,y now"))].

Definition example_schedule : list event := [Acquire 0; Resolve 0 (Response 200)].

Definition example_report : dict :=
  [ (py "200", [py "http://a.example/x,y"]); (py "301_302", []); (py "403", []);
    (py "404", []); (py "500+", []); (py "error", []) ].

Definition example_body : extraction :=
  {| resp_urls := [py "http://a.example/x,y"];
     resp_unique_urls := [py "http://a.example/x,y"];
     resp_status_results := example_report;
     resp_csv_data := generate_csv example_report;
     resp_json_data := generate_json example_report |}.

(** * Theorems *)

Arguments py : simpl never.
Arguments ord : simpl never.

(** ** The prober *)

Section Prober.

Variable url : pystr.

Lemma strip_prefix_app (p s : pystr) : strip_prefix p (p ++ s) = Some s.
Proof.
  induction p as [|a p IH]; simpl; [done|].
  by rewrite decide_True.
Qed.

Lemma outcome_of_int (n : Z) : outcome_of (SInt n) = StatusCode n.
Proof. reflexivity. Qed.

Lemma outcome_of_timeout : outcome_of (SStr (py "timeout")) = Timeout.
Proof. reflexivity. Qed.

Lemma outcome_of_error : outcome_of (SStr (py "error")) = NetworkError [].
Proof. reflexivity. Qed.

Lemma outcome_of_error_detail (d : pystr) :
  outcome_of (SStr (py "error: " ++ d)) = NetworkError d.
Proof.
  unfold outcome_of. rewrite decide_False by (intros H; discriminate H).
  by rewrite strip_prefix_app.
Qed.

(** The clause for [aiohttp.ClientError] comes first: an exception that is
    both a [ClientError] and a [TimeoutError] is reported as [error]. *)
Lemma client_error_clause_first (e : exn) :
  isinstance_ClientError e = true ->
  fetch_status url (Raises e) = Returns (url, SStr (py "error")).
Proof. intros H. unfold fetch_status. by rewrite H. Qed.

(** Only an exception outside the class [Exception] leaves [fetch_status]. *)
Lemma fetch_status_propagates (r : request_end) (e : exn) :
  fetch_status url r = Propagates e <->
  r = Raises e /\ handled r = false.
Proof.
  destruct r as [n|e']; simpl.
  - split; [discriminate | intros [? _]; discriminate].
  - destruct (isinstance_ClientError e'), (isinstance_TimeoutError e'),
      (isinstance_Exception e'); simpl;
      (split; [try discriminate; intros [= ->]; done | intros [[= ->] ?]; done]).
Qed.

End Prober.

(** C4: whatever ends the request (a response, a timeout, or any raised
    exception of class [Exception]), [fetch_status] returns a pair of the
    URL and a status that reads as one of the three outcomes; no exception
    leaves it. *)
Theorem fetch_status_always_returns (url : pystr) (r : request_end) :
  handled r = true ->
  exists st,
    fetch_status url r = Returns (url, st) /\
    ((exists n, r = Response n /\ st = SInt n /\ outcome_of st = StatusCode n)
     \/ (st = SStr (py "timeout") /\ outcome_of st = Timeout)
     \/ (exists detail, outcome_of st = NetworkError detail /\
           (st = SStr (py "error") \/ st = SStr (py "error: " ++ detail)))).
Proof.
  destruct r as [n|e]; simpl.
  - intros _. exists (SInt n). split; [done|]. left. by exists n.
  - destruct (isinstance_ClientError e).
    + intros _. eexists. split; [done|]. right; right. exists []. by split; [|left].
    + destruct (isinstance_TimeoutError e).
      * intros _. eexists. split; [done|]. right; left. done.
      * destruct (isinstance_Exception e); [|discriminate].
        intros _. eexists. split; [done|]. right; right. exists (str e).
        split; [apply outcome_of_error_detail | by right].
Qed.

Lemma fetch_status_always_returns_witness :
  exists st,
    fetch_status (py "http://a.example") (Raises (mk_exn false false true (py "boom")))
      = Returns (py "http://a.example", st).
Proof.
  destruct (fetch_status_always_returns (py "http://a.example")
              (Raises (mk_exn false false true (py "boom"))) eq_refl)
    as [st [H _]].
  exists st. exact H.
Defined.

(** C5: a request that runs into the timeout raises
    [asyncio.TimeoutError] (an exception that is not an
    [aiohttp.ClientError]); [fetch_status] then returns the status
    [timeout], which is the outcome [Timeout] and neither a status code nor
    a network error. *)
Theorem timeout_is_reported_as_Timeout (url : pystr) (e : exn) :
  isinstance_TimeoutError e = true ->
  isinstance_ClientError e = false ->
  fetch_status url (Raises e) = Returns (url, SStr (py "timeout")) /\
  outcome_of (SStr (py "timeout")) = Timeout.
Proof.
  intros Ht Hc. unfold fetch_status. rewrite Hc, Ht. done.
Qed.

Lemma timeout_is_reported_as_Timeout_witness :
  fetch_status (py "http://slow.example") (Raises (mk_exn false true true []))
    = Returns (py "http://slow.example", SStr (py "timeout")) /\
  outcome_of (SStr (py "timeout")) = Timeout.
Proof.
  apply (timeout_is_reported_as_Timeout (py "http://slow.example")
           (mk_exn false true true [])); reflexivity.
Defined.

(** C6, as stated, fails: for a refused connection the status is the bare
    string [error], whose detail is empty, and it is the very same status
    as for a failed name resolution, so it does not describe the failure. *)
Lemma client_error_carries_no_detail :
  fetch_status (py "http://a.example") (Raises connection_refused)
    = Returns (py "http://a.example", SStr (py "error")) /\
  outcome_of (SStr (py "error")) = NetworkError [] /\
  fetch_status (py "http://a.example") (Raises dns_failure)
    = fetch_status (py "http://a.example") (Raises connection_refused) /\
  str dns_failure <> str connection_refused.
Proof. repeat split. discriminate. Qed.

(** C6, amended: a failure that is not reported as a timeout ends in a
    network error.  For an [aiohttp.ClientError] the status is the bare
    string [error], with an empty detail; for any other exception of class
    [Exception] it is [error: ] followed by [str(e)], and the detail is
    [str(e)].  Either way the status is a non-empty string that the
    aggregator files under [error]. *)
Theorem failure_is_reported_as_NetworkError (url : pystr) (e : exn) :
  isinstance_ClientError e = true
  \/ (isinstance_TimeoutError e = false /\ isinstance_Exception e = true) ->
  let s := if isinstance_ClientError e then py "error"
           else py "error: " ++ str e in
  let detail := if isinstance_ClientError e then [] else str e in
  fetch_status url (Raises e) = Returns (url, SStr s) /\
  outcome_of (SStr s) = NetworkError detail /\
  s <> [] /\
  bucket_of (SStr s) = py "error".
Proof.
  intros H s detail. subst s detail. unfold fetch_status.
  destruct (isinstance_ClientError e).
  - repeat split. discriminate.
  - destruct H as [H|[-> ->]]; [discriminate|].
    split; [reflexivity|]. split; [apply outcome_of_error_detail|].
    split; [discriminate | reflexivity].
Qed.

Lemma failure_is_reported_as_NetworkError_witness :
  fetch_status (py "http://a.example") (Raises (mk_exn false false true (py "boom")))
    = Returns (py "http://a.example", SStr (py "error: " ++ py "boom")) /\
  outcome_of (SStr (py "error: " ++ py "boom")) = NetworkError (py "boom").
Proof.
  destruct (failure_is_reported_as_NetworkError (py "http://a.example")
              (mk_exn false false true (py "boom")) (or_intror (conj eq_refl eq_refl)))
    as (H1 & H2 & _).
  split; [exact H1 | exact H2].
Defined.

(** ** The aggregator *)

Lemma bucket_of_table (st : status) : bucket_of st = spec_bucket (outcome_of st).
Proof.
  destruct st as [n|s].
  - unfold bucket_of, status_in, status_eq_int, status_int_ge, existsb.
    simpl outcome_of. unfold spec_bucket.
    destruct (Z.eqb_spec n 200); [by rewrite decide_True|].
    rewrite (decide_False (P := n = 200)) by done.
    destruct (Z.eqb_spec n 301); [by rewrite decide_True by lia|].
    destruct (Z.eqb_spec n 302); [by rewrite decide_True by lia|].
    rewrite (decide_False (P := n = 301 \/ n = 302)) by lia. simpl.
    destruct (Z.eqb_spec n 403); [by rewrite decide_True|].
    rewrite (decide_False (P := n = 403)) by done.
    destruct (Z.eqb_spec n 404); [by rewrite decide_True|].
    rewrite (decide_False (P := n = 404)) by done.
    destruct (Z.leb_spec 500 n);
      [by rewrite decide_True by lia | by rewrite decide_False by lia].
  - change (bucket_of (SStr s)) with (py "error").
    unfold outcome_of. by case_decide.
Qed.

Lemma bucket_of_key (st : status) : bucket_of st ∈ bucket_keys.
Proof.
  unfold bucket_of, bucket_keys.
  repeat (case_match; [set_solver|]). set_solver.
Qed.

Lemma bucket_keys_NoDup : NoDup bucket_keys.
Proof. apply (bool_decide_unpack _). by vm_compute. Qed.

Lemma status_results0_keys : status_results0.*1 = bucket_keys.
Proof. reflexivity. Qed.

Lemma appended_other (k u : pystr) (d : dict) : k ∉ d.*1 -> appended k u <$> d = d.
Proof.
  induction d as [|[k' v] d IH]; simpl; [done|].
  intros Hk. unfold appended at 1. simpl.
  rewrite decide_False by set_solver. f_equal. apply IH. set_solver.
Qed.

Lemma getitem_append_spec (d : dict) (k u : pystr) :
  k ∈ d.*1 -> NoDup d.*1 ->
  getitem_append d k u = Some (appended k u <$> d).
Proof.
  induction d as [|[k' v] d IH]; simpl; [set_solver|].
  intros Hk Hnd. apply NoDup_cons in Hnd as [Hk' Hnd].
  unfold appended at 1. simpl. destruct (decide (k = k')) as [->|Hne].
  - rewrite decide_True by done. by rewrite appended_other.
  - rewrite decide_False by done. rewrite IH; [done| set_solver |done].
Qed.

Lemma getitem_append_keyerror (d : dict) (k u : pystr) :
  k ∉ d.*1 -> getitem_append d k u = None.
Proof.
  induction d as [|[k' v] d IH]; simpl; [done|].
  intros Hk. rewrite decide_False by set_solver. rewrite IH; [done|set_solver].
Qed.

Lemma appended_keys (k u : pystr) (d : dict) : (appended k u <$> d).*1 = d.*1.
Proof. rewrite <- list_fmap_compose. by apply list_fmap_ext. Qed.

(** The loop, from any dictionary that holds the six keys. *)
Lemma categorize_spec (results : list (pystr * status)) (d : dict) :
  NoDup d.*1 -> bucket_keys ⊆ d.*1 ->
  categorize results d
  = Some ((fun entry => (entry.1, entry.2 ++ urls_for entry.1 results)) <$> d).
Proof.
  revert d. induction results as [|[url st] results IH]; intros d Hnd Hkeys.
  - simpl. f_equal. rewrite <- (list_fmap_id d) at 1. apply list_fmap_ext.
    intros _ [k v] _. simpl. unfold urls_for. simpl. by rewrite app_nil_r.
  - simpl. rewrite getitem_append_spec;
      [|apply Hkeys, bucket_of_key|done].
    simpl. rewrite IH; [|by rewrite appended_keys..].
    f_equal. rewrite <- list_fmap_compose. apply list_fmap_ext.
    intros _ [k v] _. simpl. f_equal. unfold urls_for.
    rewrite filter_cons. simpl. rewrite <- bucket_of_table.
    destruct (decide (k = bucket_of st)) as [->|Hne].
    + rewrite !decide_True by done. simpl. by rewrite <- app_assoc.
    + by rewrite !decide_False by done.
Qed.

Lemma aggregate_spec (results : list (pystr * status)) :
  aggregate results = Some ((fun b => (b, urls_for b results)) <$> bucket_keys).
Proof.
  unfold aggregate. rewrite categorize_spec.
  - reflexivity.
  - rewrite status_results0_keys. apply bucket_keys_NoDup.
  - by rewrite status_results0_keys.
Qed.

Lemma elem_of_urls_for (b url : pystr) (results : list (pystr * status)) :
  url ∈ urls_for b results <->
  exists st, (url, st) ∈ results /\ spec_bucket (outcome_of st) = b.
Proof.
  unfold urls_for. rewrite list_elem_of_fmap. split.
  - intros [[u st] [-> [H1 H2]%list_elem_of_filter]]. by exists st.
  - intros [st [H1 H2]]. exists (url, st). split; [done|].
    by apply list_elem_of_filter.
Qed.

Lemma urls_for_cons (b url : pystr) (st : status) (results : list (pystr * status)) :
  urls_for b ((url, st) :: results)
  = if decide (spec_bucket (outcome_of st) = b) then url :: urls_for b results
    else urls_for b results.
Proof. unfold urls_for. rewrite filter_cons. simpl. by case_decide. Qed.

Lemma urls_for_cons_other (keys : list pystr) (url : pystr) (st : status)
    (results : list (pystr * status)) :
  spec_bucket (outcome_of st) ∉ keys ->
  (fun b => urls_for b ((url, st) :: results)) <$> keys
  = (fun b => urls_for b results) <$> keys.
Proof.
  intros Hk. apply list_fmap_ext. intros i b Hb.
  rewrite urls_for_cons, decide_False; [done|].
  intros Heq. apply Hk. rewrite Heq. by eapply list_elem_of_lookup_2.
Qed.

(** The buckets of a report, laid end to end. *)
Lemma buckets_permutation (results : list (pystr * status)) (keys : list pystr) :
  NoDup keys -> (forall st, spec_bucket (outcome_of st) ∈ keys) ->
  concat ((fun b => urls_for b results) <$> keys) ≡ₚ results.*1.
Proof.
  intros Hnd Hin. induction results as [|[url st] results IH].
  - simpl. clear. induction keys as [|k keys IH]; simpl; done.
  - simpl. rewrite <- IH. specialize (Hin st). clear IH.
    induction keys as [|k keys IHk]; [set_solver|].
    apply NoDup_cons in Hnd as [Hk Hnd]. simpl.
    rewrite urls_for_cons.
    destruct (decide (spec_bucket (outcome_of st) = k)) as [Heq|Hne].
    + subst k. by rewrite urls_for_cons_other.
    + rewrite IHk; [|done|set_solver].
      by rewrite Permutation_middle.
Qed.

(** C1: the aggregator files every result under the bucket the table of
    the specification gives for its outcome, and under no other: the report
    holds the six buckets, and each bucket lists, in order, exactly the
    URLs of the results whose outcome the table sends there. *)
Theorem aggregate_follows_table (results : list (pystr * status)) :
  aggregate results
  = Some ((fun b => (b, fst <$> filter (fun r => spec_bucket (outcome_of r.2) = b) results))
            <$> bucket_keys).
Proof.
  unfold aggregate. rewrite categorize_spec.
  - reflexivity.
  - rewrite status_results0_keys. apply bucket_keys_NoDup.
  - by rewrite status_results0_keys.
Qed.

Lemma NoDup_fst_functional {A B : Type} (l : list (A * B)) (x : A) (y1 y2 : B) :
  NoDup l.*1 -> (x, y1) ∈ l -> (x, y2) ∈ l -> y1 = y2.
Proof.
  induction l as [|[a b] l IH]; [by intros _ ?%elem_of_nil|].
  rewrite fmap_cons, NoDup_cons, !elem_of_cons. intros [Ha Hnd] H1 H2.
  assert (forall y, (a, y) ∈ l -> False) as Hno.
  { intros y Hy. apply Ha. apply list_elem_of_fmap. by exists (a, y). }
  destruct H1 as [H1|H1], H2 as [H2|H2]; simplify_eq;
    [done | by destruct (Hno y2) | by destruct (Hno y1) | by apply IH].
Qed.

(** C2: for results with pairwise distinct URLs, the buckets of the report
    hold as many entries as there are results, the entries are the input
    URLs (none dropped, none twice), and every input URL is in one bucket
    only. *)
Theorem aggregate_partitions_urls (results : list (pystr * status)) :
  NoDup results.*1 ->
  exists report,
    aggregate results = Some report /\
    length (concat report.*2) = length results /\
    concat report.*2 ≡ₚ results.*1 /\
    NoDup (concat report.*2) /\
    forall url, url ∈ results.*1 ->
      exists b, (exists urls, (b, urls) ∈ report /\ url ∈ urls) /\
                forall b' urls', (b', urls') ∈ report -> url ∈ urls' -> b' = b.
Proof.
  intros Hnd. eexists. split; [apply aggregate_spec|].
  assert (Hperm : concat ((fun b => (b, urls_for b results)) <$> bucket_keys).*2
                  ≡ₚ results.*1).
  { rewrite <- list_fmap_compose.
    apply (buckets_permutation results bucket_keys bucket_keys_NoDup).
    intros st. rewrite <- bucket_of_table. apply bucket_of_key. }
  split; [by rewrite Hperm, length_fmap|].
  split; [done|]. split; [by rewrite Hperm|].
  intros url [[u st] [-> Hin]]%list_elem_of_fmap. change ((u, st).1) with u.
  exists (spec_bucket (outcome_of st)). split.
  - exists (urls_for (spec_bucket (outcome_of st)) results). split.
    + apply list_elem_of_fmap. eexists. split; [reflexivity|].
      rewrite <- bucket_of_table. apply bucket_of_key.
    + apply elem_of_urls_for. by exists st.
  - intros b' urls' [b [[= -> ->] _]]%list_elem_of_fmap
      [st' [Hin' <-]]%elem_of_urls_for.
    assert (st' = st) as ->; [|done].
    by eapply NoDup_fst_functional.
Qed.

Lemma aggregate_partitions_urls_witness :
  exists report,
    aggregate [(py "http://a.example", SInt 200); (py "http://b.example", SInt 503)]
      = Some report /\
    length (concat report.*2) = 2%nat.
Proof.
  destruct (aggregate_partitions_urls
              [(py "http://a.example", SInt 200); (py "http://b.example", SInt 503)])
    as (report & H1 & H2 & _).
  - apply (bool_decide_unpack _). by vm_compute.
  - exists report. split; [exact H1 | exact H2].
Defined.

(** ** The dispatcher *)

Lemma count_nil (P : task -> bool) : count P [] = 0%nat.
Proof. reflexivity. Qed.

Lemma count_cons (P : task -> bool) (t : task) (ts : list task) :
  count P (t :: ts) = ((if P t then 1 else 0) + count P ts)%nat.
Proof.
  unfold count. rewrite filter_cons. destruct (P t); simpl; done.
Qed.

Lemma count_app (P : task -> bool) (l1 l2 : list task) :
  count P (l1 ++ l2) = (count P l1 + count P l2)%nat.
Proof. unfold count. by rewrite filter_app, length_app. Qed.

Lemma count_pos (P : task -> bool) (ts : list task) :
  (0 < count P ts)%nat -> exists i t, ts !! i = Some t /\ P t = true.
Proof.
  induction ts as [|t ts IH]; [rewrite count_nil; lia|].
  rewrite count_cons. destruct (P t) eqn:Ht.
  - intros _. by exists 0%nat, t.
  - intros [i [t' [H1 H2]]]%IH. by exists (S i), t'.
Qed.

Lemma in_flight_count (s : batch) : in_flight s = count is_in_flight (tasks s).
Proof. reflexivity. Qed.

Lemma waiting_count (s : batch) : waiting s = count is_waiting (tasks s).
Proof. reflexivity. Qed.

(** Replacing the task at position [i]. *)
Lemma insert_split (ts : list task) (i : nat) (t : task) :
  ts !! i = Some t ->
  exists l1 l2, ts = l1 ++ t :: l2 /\ forall t', <[i := t']> ts = l1 ++ t' :: l2.
Proof.
  intros H. exists (take i ts), (drop (S i) ts). split.
  - by rewrite take_drop_middle.
  - intros t'. apply insert_take_drop. by eapply lookup_lt_Some.
Qed.

Lemma raised_in_None (ts : list task) :
  raised_in ts = None <-> Forall (fun t => is_raised t = false) ts.
Proof.
  induction ts as [|t ts IH]; simpl; [by split|].
  rewrite Forall_cons.
  destruct t as [u|u|[r|e]]; simpl; try (rewrite IH; tauto).
  split; [discriminate | intros [? _]; discriminate].
Qed.

Lemma all_returned_Some (ts : list task) (rs : list (pystr * status)) :
  all_returned ts = Some rs <-> ts = (fun r => Done (Returns r)) <$> rs.
Proof.
  revert rs. induction ts as [|t ts IH]; intros rs; simpl.
  - split; [by intros [= <-] | by destruct rs].
  - destruct t as [u|u|[r|e]]; try (split; [discriminate | by destruct rs]).
    destruct (all_returned ts) as [rs'|] eqn:E; simpl.
    + split.
      * intros [= <-]. simpl. f_equal. by apply IH.
      * destruct rs as [|r0 rs0]; [discriminate|]. simpl. intros [= -> H].
        apply IH in H. by simplify_eq.
    + split; [discriminate|].
      destruct rs as [|r0 rs0]; [discriminate|]. simpl. intros [= -> H].
      apply IH in H. discriminate.
Qed.

Lemma gather_Returns (s : batch) (results : list (pystr * status)) :
  gather s = Some (Returns results) ->
  tasks s = (fun r => Done (Returns r)) <$> results.
Proof.
  unfold gather. destruct (raised s); [discriminate|].
  destruct (all_returned (tasks s)) as [rs|] eqn:E; [|discriminate].
  intros [= <-]. by apply all_returned_Some.
Qed.

Lemma count_returned (P : task -> bool) (results : list (pystr * status)) :
  (forall r, P (Done (Returns r)) = false) ->
  count P ((fun r => Done (Returns r)) <$> results) = 0%nat.
Proof.
  intros HP. induction results as [|r rs IH]; [done|].
  rewrite fmap_cons, count_cons, HP, IH. done.
Qed.

Lemma pending_urls_returned (results : list (pystr * status)) :
  pending_urls ((fun r => Done (Returns r)) <$> results) = [].
Proof. induction results as [|r rs IH]; [done|]. by rewrite fmap_cons. Qed.

Lemma task_for_returned (urls : list pystr) (results : list (pystr * status)) :
  Forall2 task_for urls ((fun r => Done (Returns r)) <$> results) ->
  results.*1 = urls.
Proof.
  revert urls. induction results as [|[u st] rs IH]; intros urls.
  - by intros ->%Forall2_nil_inv_r.
  - rewrite fmap_cons. intros (u' & urls' & H1 & H2 & ->)%Forall2_cons_inv_r.
    simpl in *. subst. f_equal. by apply IH.
Qed.

Lemma invariant_start (urls : list pystr) : invariant urls 0 (start urls).
Proof.
  assert (count is_in_flight (Waiting <$> urls) = 0%nat) as Hf.
  { induction urls as [|u urls IH]; [done|]. by rewrite fmap_cons, count_cons. }
  assert (count is_waiting (Waiting <$> urls) = length urls) as Hw.
  { clear. induction urls as [|u urls IH]; [done|].
    rewrite fmap_cons, count_cons, IH. done. }
  split; rewrite ?in_flight_count, ?waiting_count; simpl; rewrite ?Hf, ?Hw.
  - reflexivity.
  - clear. induction urls as [|u urls IH]; constructor; done.
  - clear. induction urls as [|u urls IH]; [done|]. simpl. by f_equiv.
  - lia.
  - split; [intros _|done]. clear. induction urls as [|u urls IH]; done.
Qed.

Lemma invariant_step (urls : list pystr) (n : nat) (s s' : batch) (ev : event) :
  invariant urls n s -> step s ev = Some s' -> invariant urls (S n) s'.
Proof.
  intros [Hsem Htasks Hreq Hev Hraised]. rewrite in_flight_count, waiting_count in *.
  destruct ev as [i|i r]; simpl.
  - destruct (tasks s !! i) as [[u|u|c]|] eqn:Hi; try discriminate.
    destruct (sem_value s) as [|v] eqn:Hv; [discriminate|].
    intros [= <-]. destruct (insert_split _ _ _ Hi) as (l1 & l2 & E & Hins).
    split; rewrite ?in_flight_count, ?waiting_count; simpl;
      rewrite Hins; rewrite E in *;
      rewrite ?count_app, ?count_cons in *; simpl in *.
    + lia.
    + apply Forall2_app_inv_r in Htasks as (us1 & us2 & H1 & H2 & ->).
      apply Forall2_cons_inv_r in H2 as (u' & us2' & H2 & H3 & ->).
      apply Forall2_app; [done|]. by constructor.
    + rewrite <- Hreq. unfold pending_urls. rewrite !omap_app. simpl.
      rewrite <- !app_assoc. f_equiv. simpl. by rewrite Permutation_middle.
    + lia.
    + rewrite Hraised, !raised_in_None, !Forall_app, !Forall_cons. simpl. tauto.
  - destruct (tasks s !! i) as [[u|u|c]|] eqn:Hi; try discriminate.
    intros [= <-]. destruct (insert_split _ _ _ Hi) as (l1 & l2 & E & Hins).
    split; rewrite ?in_flight_count, ?waiting_count; simpl;
      rewrite Hins; rewrite E in *;
      rewrite ?count_app, ?count_cons in *; simpl in *.
    + lia.
    + apply Forall2_app_inv_r in Htasks as (us1 & us2 & H1 & H2 & ->).
      apply Forall2_cons_inv_r in H2 as (u' & us2' & H2 & H3 & ->).
      apply Forall2_app; [done|]. constructor; [|done].
      simpl in H2. subst u'. destruct r as [k|e]; simpl; [done|].
      by destruct (isinstance_ClientError e), (isinstance_TimeoutError e),
        (isinstance_Exception e).
    + rewrite <- Hreq. unfold pending_urls. by rewrite !omap_app.
    + lia.
    + rewrite !raised_in_None, !Forall_app, !Forall_cons in *. simpl in *.
      destruct (fetch_status u r) as [p|e]; simpl.
      * destruct (raised s); tauto.
      * split; [by destruct (raised s) | by intros (_ & ? & _)].
Qed.

Lemma invariant_run (urls : list pystr) (evs : list event) (n : nat) (s s' : batch) :
  invariant urls n s -> run s evs = Some s' ->
  invariant urls (n + length evs) s'.
Proof.
  revert n s. induction evs as [|ev evs IH]; intros n s Hinv; simpl.
  - intros [= <-]. by rewrite Nat.add_0_r.
  - destruct (step s ev) as [s1|] eqn:Hstep; [|discriminate]. simpl.
    intros Hrun. replace (n + S (length evs))%nat with (S n + length evs)%nat by lia.
    eapply IH; [|done]. by eapply invariant_step.
Qed.

(** Handled events never leave a raised coroutine behind. *)
Lemma step_no_raise (s s' : batch) (ev : event) :
  raised_in (tasks s) = None -> event_handled ev = true ->
  step s ev = Some s' -> raised_in (tasks s') = None.
Proof.
  rewrite !raised_in_None. intros Hno Hev. destruct ev as [i|i r]; simpl.
  - destruct (tasks s !! i) as [[u|u|c]|] eqn:Hi; try discriminate.
    destruct (sem_value s); [discriminate|]. intros [= <-]. simpl.
    destruct (insert_split _ _ _ Hi) as (l1 & l2 & E & Hins).
    rewrite Hins. rewrite E in Hno.
    apply Forall_app in Hno as [H1 [_ H2]%Forall_cons].
    apply Forall_app. split; [done|]. by constructor.
  - destruct (tasks s !! i) as [[u|u|c]|] eqn:Hi; try discriminate.
    intros [= <-]. simpl.
    destruct (insert_split _ _ _ Hi) as (l1 & l2 & E & Hins).
    rewrite Hins. rewrite E in Hno.
    apply Forall_app in Hno as [H1 [_ H2]%Forall_cons].
    apply Forall_app. split; [done|]. constructor; [|done].
    simpl in Hev. destruct (fetch_status u r) as [p|e] eqn:Hf; [done|].
    apply fetch_status_propagates in Hf as [_ Hf]. congruence.
Qed.

Lemma run_no_raise (s s' : batch) (evs : list event) :
  raised_in (tasks s) = None -> forallb event_handled evs = true ->
  run s evs = Some s' -> raised_in (tasks s') = None.
Proof.
  revert s. induction evs as [|ev evs IH]; intros s Hno; simpl.
  - by intros _ [= <-].
  - intros [Hev Hevs]%andb_prop.
    destruct (step s ev) as [s1|] eqn:Hstep; [|discriminate]. simpl.
    apply IH; [|done]. by eapply step_no_raise.
Qed.

Lemma start_no_raise (urls : list pystr) : raised_in (tasks (start urls)) = None.
Proof. simpl. induction urls as [|u urls IH]; done. Qed.

Lemma some_unfinished (ts : list task) :
  raised_in ts = None -> all_returned ts = None ->
  exists i u, ts !! i = Some (Waiting u) \/ ts !! i = Some (InFlight u).
Proof.
  induction ts as [|t ts IH]; simpl; [discriminate|].
  destruct t as [u|u|[r|e]].
  - intros _ _. exists 0%nat, u. by left.
  - intros _ _. exists 0%nat, u. by right.
  - intros H1 H2. destruct (all_returned ts); [discriminate|].
    destruct (IH H1 eq_refl) as (i & u & H). by exists (S i), u.
  - discriminate.
Qed.

Lemma gather_None (s : batch) :
  gather s = None ->
  raised s = None /\ all_returned (tasks s) = None.
Proof.
  unfold gather. destruct (raised s); [discriminate|].
  by destruct (all_returned (tasks s)).
Qed.

(** While [gather] is still waiting, the event loop has something to do. *)
Lemma progress (urls : list pystr) (n : nat) (s : batch) :
  invariant urls n s -> gather s = None ->
  exists ev s', event_handled ev = true /\ step s ev = Some s'.
Proof.
  intros Hinv [Hno Hall]%gather_None.
  apply (inv_raised _ _ _ Hinv) in Hno.
  assert (forall j u, tasks s !! j = Some (InFlight u) ->
            exists ev s', event_handled ev = true /\ step s ev = Some s') as Hres.
  { intros j u Hj. exists (Resolve j (Response 200)). simpl. rewrite Hj. eauto. }
  destruct (some_unfinished _ Hno Hall) as (i & u & [Hi|Hi]); [|by eapply Hres].
  destruct (sem_value s) as [|v] eqn:Hv.
  - destruct (count_pos is_in_flight (tasks s)) as (j & t & Hj & Ht).
    { pose proof (inv_sem _ _ _ Hinv) as Hs. rewrite Hv, in_flight_count in Hs.
      simpl in Hs. rewrite Hs. unfold concurrency_limit. lia. }
    destruct t; try discriminate. by eapply Hres.
  - exists (Acquire i). simpl. rewrite Hi, Hv. eauto.
Qed.

(** Every batch can be run to the end of [gather]. *)
Lemma completes (urls : list pystr) (k n : nat) (s : batch) :
  (2 * waiting s + in_flight s = k)%nat ->
  invariant urls n s -> raised_in (tasks s) = None ->
  exists evs s' results,
    forallb event_handled evs = true /\ run s evs = Some s' /\
    gather s' = Some (Returns results).
Proof.
  revert n s. induction k as [|k IH]; intros n s Hk Hinv Hno;
    (destruct (gather s) as [[results|e]|] eqn:Hg;
     [ by exists [], s, results
     | unfold gather in Hg;
       rewrite (proj2 (inv_raised _ _ _ Hinv) Hno) in Hg;
       by destruct (all_returned (tasks s))
     | ]);
    destruct (progress _ _ _ Hinv Hg) as (ev & s1 & Hev & Hstep);
    pose proof (invariant_step _ _ _ _ _ Hinv Hstep) as Hinv1;
    pose proof (inv_events _ _ _ Hinv) as E;
    pose proof (inv_events _ _ _ Hinv1) as E1.
  - lia.
  - destruct (IH (S n) s1) as (evs & s' & results & H1 & H2 & H3);
      [lia | done | by eapply step_no_raise |].
    exists (ev :: evs), s', results. simpl. rewrite Hev, Hstep. done.
Qed.

(** C3: in every state a batch reaches, at most 10 requests are in
    flight and there is one coroutine per input URL; [gather] returns only
    when no coroutine is waiting or in flight, and then with exactly one
    result per input URL, in the order of the input; as long as every
    request ends in a response or an exception of class [Exception], no
    failure makes [gather] raise, the event loop is never stuck before
    [gather] has returned, and the batch can always be run to its end.
    Every schedule is at most two events per URL long. *)
Theorem dispatcher_contract (urls : list pystr) (evs : list event) (s : batch) :
  run (start urls) evs = Some s ->
  (in_flight s <= concurrency_limit)%nat /\
  length (tasks s) = length urls /\
  (length evs <= 2 * length urls)%nat /\
  (forall results, gather s = Some (Returns results) ->
     results.*1 = urls /\ length results = length urls /\
     in_flight s = 0%nat /\ waiting s = 0%nat /\
     length evs = (2 * length urls)%nat) /\
  (forallb event_handled evs = true ->
     (forall e, gather s <> Some (Propagates e)) /\
     (gather s = None -> exists ev s', event_handled ev = true /\ step s ev = Some s') /\
     (exists evs' s' results,
        forallb event_handled evs' = true /\ run s evs' = Some s' /\
        gather s' = Some (Returns results) /\ results.*1 = urls)).
Proof.
  intros Hrun.
  pose proof (invariant_run urls evs 0 _ _ (invariant_start urls) Hrun) as Hinv.
  simpl in Hinv. destruct (Hinv) as [Hsem Htasks Hreq Hev Hraised].
  split; [lia|]. split; [symmetry; by eapply Forall2_length|].
  split; [lia|]. split.
  - intros results Hg. apply gather_Returns in Hg.
    rewrite in_flight_count, waiting_count in *. rewrite Hg in *.
    rewrite !count_returned in * by done.
    apply task_for_returned in Htasks. split; [done|].
    split; [by rewrite <- Htasks, length_fmap|]. split; [done|]. split; [done|]. lia.
  - intros Hh.
    pose proof (run_no_raise _ _ _ (start_no_raise urls) Hh Hrun) as Hno.
    split; [|split].
    + intros e. unfold gather. rewrite (proj2 Hraised Hno).
      by destruct (all_returned (tasks s)).
    + by eapply progress.
    + destruct (completes urls _ _ s eq_refl Hinv Hno)
        as (evs' & s' & results & H1 & H2 & H3).
      exists evs', s', results. split; [done|]. split; [done|]. split; [done|].
      pose proof (invariant_run urls evs' _ _ _ Hinv H2) as [_ Ht' _ _ _].
      apply gather_Returns in H3. rewrite H3 in Ht'.
      by apply task_for_returned.
Qed.

Lemma dispatcher_contract_witness :
  exists s,
    run (start [py "http://a.example"; py "http://b.example"])
      [Acquire 1; Acquire 0; Resolve 1 (Raises connection_refused);
       Resolve 0 (Response 200)] = Some s /\
    (in_flight s <= concurrency_limit)%nat /\
    gather s = Some (Returns [(py "http://a.example", SInt 200);
                              (py "http://b.example", SStr (py "error"))]).
Proof.
  eexists. split; [reflexivity|]. split; [|reflexivity].
  exact (proj1 (dispatcher_contract
                  [py "http://a.example"; py "http://b.example"]
                  [Acquire 1; Acquire 0; Resolve 1 (Raises connection_refused);
                   Resolve 0 (Response 200)] _ eq_refl)).
Defined.

(** ** The report *)

Lemma check_urls_returns (urls : list pystr) (evs : list event) (report : dict) :
  check_urls urls evs = Some (Returns report) ->
  exists s results,
    run (start urls) evs = Some s /\ gather s = Some (Returns results) /\
    aggregate results = Some report.
Proof.
  unfold check_urls. destruct (run (start urls) evs) as [s|]; [|discriminate].
  simpl. destruct (gather s) as [[results|e]|] eqn:Hg; simpl; try discriminate.
  destruct (aggregate results) as [d|] eqn:Ha; simpl; [|discriminate].
  intros [= <-]. by exists s, results.
Qed.

(** C7: the report always has exactly the six bucket keys, in the order
    of the dictionary literal, whatever the results are (the loop never
    meets a missing key); for no URL at all [check_urls] returns at once,
    without any event, the report whose six buckets are empty. *)
Theorem report_always_has_six_buckets :
  (forall results, exists report,
     aggregate results = Some report /\ report.*1 = bucket_keys) /\
  (forall urls evs report,
     check_urls urls evs = Some (Returns report) -> report.*1 = bucket_keys) /\
  check_urls [] [] = Some (Returns ((fun b => (b, [])) <$> bucket_keys)) /\
  bucket_keys = [py "200"; py "301_302"; py "403"; py "404"; py "500+"; py "error"].
Proof.
  assert (forall results, exists report,
            aggregate results = Some report /\ report.*1 = bucket_keys) as H.
  { intros results. eexists. split; [apply aggregate_spec|].
    rewrite <- list_fmap_compose. apply list_fmap_id. }
  split; [done|]. split; [|done].
  intros urls evs report (s & results & _ & _ & Hagg)%check_urls_returns.
  destruct (H results) as (report' & H1 & H2). congruence.
Qed.

(** ** Deduplication *)

Lemma requests_at_the_end (urls : list pystr) (evs : list event) (s : batch)
    (results : list (pystr * status)) :
  run (start urls) evs = Some s -> gather s = Some (Returns results) ->
  requests s ≡ₚ urls.
Proof.
  intros Hrun Hg.
  pose proof (invariant_run urls evs 0 _ _ (invariant_start urls) Hrun)
    as [_ _ Hreq _ _].
  apply gather_Returns in Hg. rewrite Hg, pending_urls_returned in Hreq.
  by rewrite app_nil_r in Hreq.
Qed.

Lemma elem_of_unique_urls (urls : list pystr) (u : pystr) :
  u ∈ unique_urls urls <-> u ∈ urls.
Proof.
  unfold unique_urls.
  rewrite (elem_of_elements (C := gset pystr)).
  apply (elem_of_list_to_set (C := gset pystr)).
Qed.

Lemma NoDup_unique_urls (urls : list pystr) : NoDup (unique_urls urls).
Proof. unfold unique_urls. apply NoDup_elements. Qed.

(** C8: [unique_urls] holds every extracted URL once, and two URLs are
    merged only if they are the same string.  In a batch over
    [unique_urls] no URL is ever requested twice and nothing else is
    requested; when [gather] returns, the requests issued are exactly these
    URLs, each once, with one result per URL; and as long as every request
    ends in a response or an exception of class [Exception], the batch can
    be run on to that end, so every URL does get its request. *)
Theorem urls_are_deduplicated_and_probed_once (urls : list pystr) :
  NoDup (unique_urls urls) /\
  (forall u, u ∈ unique_urls urls <-> u ∈ urls) /\
  (forall u, u ∈ urls ->
     length (filter (fun v => v = u) (unique_urls urls)) = 1%nat) /\
  (forall evs s,
     run (start (unique_urls urls)) evs = Some s ->
     NoDup (requests s) /\
     (forall u, u ∈ requests s -> u ∈ unique_urls urls) /\
     (forall results,
        gather s = Some (Returns results) ->
        requests s ≡ₚ unique_urls urls /\ results.*1 = unique_urls urls) /\
     (forallb event_handled evs = true ->
      exists evs' s' results,
        forallb event_handled evs' = true /\ run s evs' = Some s' /\
        gather s' = Some (Returns results) /\
        requests s' ≡ₚ unique_urls urls /\ results.*1 = unique_urls urls)).
Proof.
  assert (NoDup (unique_urls urls)) as Hnd by apply NoDup_unique_urls.
  assert (forall u, u ∈ unique_urls urls <-> u ∈ urls) as Hin.
  { intros u. apply elem_of_unique_urls. }
  split; [done|]. split; [done|]. split.
  - intros u Hu%Hin. clear Hin. induction Hnd as [|v l Hv Hnd IH]; [by apply elem_of_nil in Hu|].
    rewrite filter_cons. apply elem_of_cons in Hu as [->|Hu].
    + rewrite decide_True by done. simpl. f_equal.
      clear IH. induction l as [|w l IHl]; [done|].
      rewrite filter_cons, decide_False by set_solver.
      apply IHl; [set_solver | by apply NoDup_cons in Hnd as [_ ?]].
    + rewrite decide_False by set_solver. by apply IH.
  - intros evs s Hrun.
    pose proof (invariant_run _ evs 0 _ _ (invariant_start _) Hrun) as Hinv.
    pose proof (inv_requests _ _ _ Hinv) as Hreq.
    split; [|split; [|split]].
    + rewrite <- Hreq in Hnd. by apply NoDup_app in Hnd as [? _].
    + intros u Hu. rewrite <- Hreq. apply elem_of_app. by left.
    + intros results Hg.
      pose proof (invariant_run _ evs 0 _ _ (invariant_start _) Hrun) as Hinv0.
      apply gather_Returns in Hg.
      pose proof (inv_tasks _ _ _ Hinv0) as Ht.
      rewrite Hg in Hreq, Ht. rewrite pending_urls_returned, app_nil_r in Hreq.
      split; [done | by apply task_for_returned].
    + intros Hh.
      pose proof (run_no_raise _ _ _ (start_no_raise _) Hh Hrun) as Hno.
      destruct (completes _ _ _ s eq_refl Hinv Hno)
        as (evs' & s' & results & H1 & H2 & H3).
      exists evs', s', results. split; [done|]. split; [done|]. split; [done|].
      pose proof (invariant_run _ evs' _ _ _ Hinv H2) as Hinv'.
      apply gather_Returns in H3.
      pose proof (inv_requests _ _ _ Hinv') as Hreq'.
      pose proof (inv_tasks _ _ _ Hinv') as Ht'.
      rewrite H3 in Hreq', Ht'. rewrite pending_urls_returned, app_nil_r in Hreq'.
      split; [done | by apply task_for_returned].
Qed.

(** URLs that differ in case, in a trailing slash or in the query string
    stay apart; the repeated one is kept once. *)
Example unique_urls_no_normalization :
  unique_urls [py "http://a.example"; py "http://a.example/";
               py "HTTP://A.EXAMPLE"; py "http://a.example?x=1";
               py "http://a.example"]
  ≡ₚ [py "http://a.example"; py "http://a.example/";
      py "HTTP://A.EXAMPLE"; py "http://a.example?x=1"].
Proof.
  apply NoDup_Permutation.
  - apply NoDup_unique_urls.
  - apply (bool_decide_unpack _). by vm_compute.
  - intros u. rewrite elem_of_unique_urls. set_solver.
Qed.

(** ** The CSV rendering *)

Lemma writerow_bucket (status : pystr) (urls : list pystr) (output : pystr) :
  fold_left (fun output url => writerow output [url; status]) urls output
  = output ++ concat (csv_line <$> ((fun url => [url; status]) <$> urls)).
Proof.
  revert output. induction urls as [|url urls IH]; intros output; simpl.
  - by rewrite app_nil_r.
  - rewrite IH. unfold writerow, csv_line. by rewrite <- !app_assoc.
Qed.

Lemma writerow_buckets (data : dict) (output : pystr) :
  fold_left
    (fun output '(status, urls) =>
       fold_left (fun output url => writerow output [url; status]) urls output)
    data output
  = output ++ concat (csv_line <$> csv_rows data).
Proof.
  revert output. induction data as [|[status urls] data IH]; intros output; simpl.
  - by rewrite app_nil_r.
  - rewrite IH, writerow_bucket, fmap_app, concat_app. by rewrite <- app_assoc.
Qed.

Lemma csv_field_plain (f : pystr) : existsb csv_special f = false -> csv_field f = f.
Proof. intros H. unfold csv_field. by rewrite H. Qed.

Lemma elem_of_csv_rows (data : dict) (row : list pystr) :
  row ∈ csv_rows data <->
  exists status urls url, (status, urls) ∈ data /\ url ∈ urls /\ row = [url; status].
Proof.
  unfold csv_rows. rewrite list_elem_of_In, in_flat_map. split.
  - intros [[status urls] [H1%list_elem_of_In H2%list_elem_of_In]].
    apply list_elem_of_fmap in H2 as [url [-> H2]]. by exists status, urls, url.
  - intros (status & urls & url & H1 & H2 & ->). exists (status, urls).
    split; [by apply list_elem_of_In|]. apply list_elem_of_In.
    apply list_elem_of_fmap. by exists url.
Qed.

Lemma csv_rows_urls (data : dict) :
  (fun row => row !! 0%nat) <$> csv_rows data = Some <$> concat data.*2.
Proof.
  induction data as [|[status urls] data IH]; [done|].
  simpl. rewrite !fmap_app, IH. f_equal.
  rewrite <- list_fmap_compose. by apply list_fmap_ext.
Qed.

Lemma parse_chars_app (self : ReaderObj) (a b : pystr) :
  parse_chars self (a ++ b) = self' ← parse_chars self a; parse_chars self' b.
Proof.
  revert self. induction a as [|c a IH]; intros self; [done|].
  simpl. destruct (parse_process_char self (Char c)) as [self1|]; simpl; [apply IH|done].
Qed.

Lemma readlines_from_begun (s line : pystr) :
  line <> [] -> exists more lines, readlines_from line s = (line ++ more) :: lines.
Proof.
  revert line. induction s as [|c s IH]; intros line Hline; simpl.
  - exists [], []. rewrite app_nil_r. by destruct line.
  - destruct (c =? 10)%N.
    + by exists [c], (readlines_from [] s).
    + destruct (IH (line ++ [c])) as (more & lines & ->); [by destruct line|].
      exists (c :: more), lines. by rewrite <- app_assoc.
Qed.

(** Reading line by line is reading the text with the ends of its lines
    marked. *)
Lemma Reader_records_scan (s : pystr) (self0 self : ReaderObj) (line : pystr) :
  parse_chars self0 line = Some self ->
  Reader_records self0 (readlines_from line s)
  = scan self (negb (bool_decide (line = []))) s.
Proof.
  revert self0 self line. induction s as [|c s IH]; intros self0 self line Hline.
  - destruct line as [|c l].
    + simpl in Hline. by injection Hline as ->.
    + cbn [readlines_from scan negb]. rewrite bool_decide_eq_false_2 by done.
      cbn [negb Reader_records]. unfold parse_line. rewrite Hline. done.
  - cbn [readlines_from scan]. destruct (c =? 10)%N eqn:Hc.
    + cbn [Reader_records]. unfold parse_line. rewrite parse_chars_app, Hline.
      cbn [mbind option_bind parse_chars].
      destruct (parse_process_char self (Char c)) as [self1|]; [|done].
      cbn [mbind option_bind].
      destruct (parse_process_char self1 EOL) as [self2|]; [|done].
      cbn [mbind option_bind].
      rewrite (IH parse_reset parse_reset []) by done.
      rewrite (IH self2 self2 []) by done. done.
    + destruct (parse_process_char self (Char c)) as [self1|] eqn:Hstep.
      * cbn [mbind option_bind]. rewrite (IH self0 self1 (line ++ [c])).
        -- rewrite bool_decide_eq_false_2; [done | by destruct line].
        -- rewrite parse_chars_app, Hline. simpl. by rewrite Hstep.
      * cbn [mbind option_bind].
        destruct (readlines_from_begun s (line ++ [c])) as (more & lines & ->);
          [by destruct line|].
        cbn [Reader_records]. unfold parse_line.
        rewrite !parse_chars_app, Hline. simpl. by rewrite Hstep.
Qed.

Lemma parse_add_char_Some (st : ParserState) (fs : list pystr) (fld : pystr) (c : N) :
  (N.of_nat (length fld) < field_limit)%N ->
  parse_add_char {| state := st; fields := fs; field := fld |} c
  = Some {| state := st; fields := fs; field := fld ++ [c] |}.
Proof.
  intros H. unfold parse_add_char. cbn [field fields state].
  by rewrite (proj2 (N.leb_gt _ _)).
Qed.

Lemma csv_special_false (c : N) :
  csv_special c = false ->
  (c =? csv_delimiter)%N = false /\ (c =? csv_quotechar)%N = false /\
  is_newline c = false.
Proof.
  unfold csv_special, is_newline, csv_lineterminator.
  intros [[H1 H2]%orb_false_elim H3]%orb_false_elim.
  apply bool_decide_eq_false_1 in H3. split; [done|]. split; [done|].
  apply orb_false_intro; apply N.eqb_neq; intros ->; apply H3; set_solver.
Qed.

Lemma length_snoc_limit (fld f : pystr) (c : N) :
  (N.of_nat (length (fld ++ c :: f)) <= field_limit)%N ->
  (N.of_nat (length fld) < field_limit)%N /\
  (N.of_nat (length ((fld ++ [c]) ++ f)) <= field_limit)%N.
Proof. rewrite !length_app. simpl. lia. Qed.

Lemma not_newline_10 (c : N) : is_newline c = false -> (c =? 10)%N = false.
Proof. unfold is_newline. by intros [? _]%orb_false_elim. Qed.

(** Single steps of the reader. *)
Lemma process_IN_FIELD (fs : list pystr) (fld : pystr) (c : N) :
  csv_special c = false -> (N.of_nat (length fld) < field_limit)%N ->
  parse_process_char {| state := IN_FIELD; fields := fs; field := fld |} (Char c)
  = Some {| state := IN_FIELD; fields := fs; field := fld ++ [c] |}.
Proof.
  intros (Hd & Hq & Hn)%csv_special_false Hlt. unfold parse_process_char.
  cbn [state]. by rewrite Hn, Hd, parse_add_char_Some.
Qed.

Lemma process_IN_QUOTED_FIELD (fs : list pystr) (fld : pystr) (c : N) :
  (c =? csv_quotechar)%N = false -> (N.of_nat (length fld) < field_limit)%N ->
  parse_process_char {| state := IN_QUOTED_FIELD; fields := fs; field := fld |} (Char c)
  = Some {| state := IN_QUOTED_FIELD; fields := fs; field := fld ++ [c] |}.
Proof.
  intros Hq Hlt. unfold parse_process_char. cbn [state].
  by rewrite Hq, parse_add_char_Some.
Qed.

Lemma process_quote_IN_QUOTED_FIELD (fs : list pystr) (fld : pystr) :
  parse_process_char {| state := IN_QUOTED_FIELD; fields := fs; field := fld |}
    (Char csv_quotechar)
  = Some {| state := QUOTE_IN_QUOTED_FIELD; fields := fs; field := fld |}.
Proof. reflexivity. Qed.

Lemma process_quote_QUOTE_IN_QUOTED_FIELD (fs : list pystr) (fld : pystr) :
  (N.of_nat (length fld) < field_limit)%N ->
  parse_process_char {| state := QUOTE_IN_QUOTED_FIELD; fields := fs; field := fld |}
    (Char csv_quotechar)
  = Some {| state := IN_QUOTED_FIELD; fields := fs; field := fld ++ [csv_quotechar] |}.
Proof.
  intros Hlt. unfold parse_process_char. cbn [state].
  rewrite N.eqb_refl, parse_add_char_Some by done. done.
Qed.

Lemma process_first (st : ParserState) (fs : list pystr) (c : N) :
  st = START_RECORD \/ st = START_FIELD -> csv_special c = false ->
  parse_process_char {| state := st; fields := fs; field := [] |} (Char c)
  = Some {| state := IN_FIELD; fields := fs; field := [c] |}.
Proof.
  intros Hst (Hd & Hq & Hn)%csv_special_false.
  assert (N.of_nat (length (@nil N)) < field_limit)%N as Hlt by done.
  destruct Hst as [-> | ->]; unfold parse_process_char; cbn [state];
    rewrite ?Hn; unfold parse_start_field; rewrite Hn, Hq, Hd.
  - unfold set_state at 2. cbn [state fields field].
    by rewrite parse_add_char_Some.
  - by rewrite parse_add_char_Some.
Qed.

(** The end of a field: the delimiter, or the carriage return of the line
    terminator. *)
Lemma process_end (st : ParserState) (fs : list pystr) (fld : pystr) (c : N) :
  st = IN_FIELD \/ st = QUOTE_IN_QUOTED_FIELD \/ (st = START_FIELD /\ fld = [])
  \/ (st = START_RECORD /\ fld = [] /\ c = csv_delimiter) ->
  c = csv_delimiter \/ c = 13%N ->
  parse_process_char {| state := st; fields := fs; field := fld |} (Char c)
  = Some {| state := (if (c =? csv_delimiter)%N then START_FIELD else EAT_CRNL);
            fields := fs ++ [fld]; field := [] |}.
Proof.
  intros [->|[->|[[-> ->]|(-> & -> & Hc)]]] Hend.
  4: by rewrite Hc.
  all: by destruct Hend as [-> | ->].
Qed.

(** The characters of an unquoted field. *)
Lemma scan_in_field (f : pystr) (fs : list pystr) (fld tail : pystr) :
  existsb csv_special f = false ->
  (N.of_nat (length (fld ++ f)) <= field_limit)%N ->
  scan {| state := IN_FIELD; fields := fs; field := fld |} true (f ++ tail)
  = scan {| state := IN_FIELD; fields := fs; field := fld ++ f |} true tail.
Proof.
  revert fld. induction f as [|c f IH]; intros fld Hf Hlen.
  - by rewrite app_nil_r.
  - simpl in Hf. apply orb_false_elim in Hf as [Hc Hf].
    destruct (length_snoc_limit _ _ _ Hlen) as [Hlt Hle].
    cbn [app scan]. rewrite process_IN_FIELD by done. cbn [mbind option_bind].
    apply csv_special_false in Hc as (_ & _ & Hn%not_newline_10). rewrite Hn.
    rewrite IH by done. by rewrite <- app_assoc.
Qed.

(** The characters of a quoted field, up to the quote that closes it. *)
Lemma scan_in_quoted_field (f : pystr) (fs : list pystr) (fld tail : pystr)
    (open : bool) :
  (N.of_nat (length (fld ++ f)) <= field_limit)%N ->
  scan {| state := IN_QUOTED_FIELD; fields := fs; field := fld |} open
    (flat_map csv_double_quote f ++ csv_quotechar :: tail)
  = scan {| state := QUOTE_IN_QUOTED_FIELD; fields := fs; field := fld ++ f |}
      true tail.
Proof.
  revert fld open. induction f as [|c f IH]; intros fld open Hlen.
  - rewrite app_nil_r. reflexivity.
  - destruct (length_snoc_limit _ _ _ Hlen) as [Hlt Hle].
    cbn [flat_map]. rewrite <- app_assoc. unfold csv_double_quote at 1.
    destruct (c =? csv_quotechar)%N eqn:Hq.
    + apply N.eqb_eq in Hq as ->. cbn [app scan].
      rewrite process_quote_IN_QUOTED_FIELD. cbn [mbind option_bind].
      change (csv_quotechar =? 10)%N with false. cbv iota.
      rewrite process_quote_QUOTE_IN_QUOTED_FIELD by done. cbn [mbind option_bind].
      rewrite IH by done. by rewrite <- app_assoc.
    + cbn [app scan]. rewrite process_IN_QUOTED_FIELD by done.
      cbn [mbind option_bind]. destruct (c =? 10)%N.
      * change (parse_process_char ?s EOL) with (Some s) at 1.
        cbn [mbind option_bind state].
        rewrite bool_decide_eq_false_2 by done.
        rewrite IH by done. by rewrite <- app_assoc.
      * rewrite IH by done. by rewrite <- app_assoc.
Qed.

(** A field, quoted or not, with the character that ends it. *)
Lemma scan_field (f : pystr) (st : ParserState) (fs : list pystr)
    (open : bool) (c : N) (tail : pystr) :
  (N.of_nat (length f) <= field_limit)%N ->
  (st = START_RECORD /\ c = csv_delimiter) \/
  (st = START_FIELD /\ (c = csv_delimiter \/ c = 13%N)) ->
  scan {| state := st; fields := fs; field := [] |} open (csv_field f ++ c :: tail)
  = scan {| state := (if (c =? csv_delimiter)%N then START_FIELD else EAT_CRNL);
            fields := fs ++ [f]; field := [] |} true tail.
Proof.
  intros Hlen Hc.
  assert (st = START_RECORD \/ st = START_FIELD) as Hst by tauto.
  assert (c = csv_delimiter \/ c = 13%N) as Hend by tauto.
  assert ((c =? 10)%N = false) as Hc10 by (by destruct Hend as [->| ->]).
  unfold csv_field. destruct (existsb csv_special f) eqn:Hf.
  - rewrite <- !app_assoc. cbn [app].
    assert (parse_process_char {| state := st; fields := fs; field := [] |}
              (Char csv_quotechar)
            = Some {| state := IN_QUOTED_FIELD; fields := fs; field := [] |}) as Hq.
    { by destruct Hst as [-> | ->]. }
    cbn [scan]. rewrite Hq. cbn [mbind option_bind].
    change (csv_quotechar =? 10)%N with false. cbv iota.
    rewrite scan_in_quoted_field by done. cbn [app scan].
    rewrite process_end by tauto. cbn [mbind option_bind]. by rewrite Hc10.
  - destruct f as [|c0 f].
    + cbn [app scan]. rewrite process_end by tauto.
      cbn [mbind option_bind]. by rewrite Hc10.
    + simpl in Hf. apply orb_false_elim in Hf as [Hc0 Hf].
      cbn [app scan]. rewrite process_first by done. cbn [mbind option_bind].
      apply csv_special_false in Hc0 as (_ & _ & Hn%not_newline_10). rewrite Hn.
      rewrite scan_in_field by done. cbn [app scan].
      rewrite process_end by tauto. cbn [mbind option_bind]. by rewrite Hc10.
Qed.

(** The line of a row of two fields. *)
Lemma scan_csv_line (a b : pystr) (open : bool) (tail : pystr) :
  (N.of_nat (length a) <= field_limit)%N -> (N.of_nat (length b) <= field_limit)%N ->
  scan parse_reset open (csv_line [a; b] ++ tail)
  = cons [a; b] <$> scan parse_reset false tail.
Proof.
  intros Ha Hb. unfold csv_line.
  assert (csv_record [a; b] = csv_field a ++ csv_delimiter :: csv_field b) as ->.
  { by destruct a as [|? ?]. }
  unfold csv_lineterminator. rewrite <- !app_assoc. cbn [app].
  rewrite <- ?app_assoc. cbn [app]. unfold parse_reset at 1.
  rewrite (scan_field a START_RECORD [] open csv_delimiter) by tauto.
  rewrite N.eqb_refl. cbn [app].
  rewrite (scan_field b START_FIELD [a] true 13) by tauto.
  reflexivity.
Qed.

Lemma scan_csv_lines (rows : list (list pystr)) :
  Forall (fun row => exists a b, row = [a; b] /\
            (N.of_nat (length a) <= field_limit)%N /\
            (N.of_nat (length b) <= field_limit)%N) rows ->
  scan parse_reset false (concat (csv_line <$> rows)) = Some rows.
Proof.
  induction 1 as [|row rows (a & b & -> & Ha & Hb) _ IH]; [done|].
  rewrite fmap_cons. cbn [concat]. rewrite scan_csv_line, IH by done. done.
Qed.

(** What [csv.reader] makes of the text of [generate_csv]. *)
Lemma csv_reader_generate_csv (data : dict) :
  within_field_limit data ->
  csv_reader (generate_csv data) = Some ([py "URL"; py "Status"] :: csv_rows data).
Proof.
  intros Hdata. unfold csv_reader, readlines.
  rewrite (Reader_records_scan _ parse_reset parse_reset []) by done.
  rewrite bool_decide_eq_true_2 by done. cbn [negb].
  assert (generate_csv data
          = concat (csv_line <$> ([py "URL"; py "Status"] :: csv_rows data))) as ->.
  { unfold generate_csv. rewrite writerow_buckets. unfold writerow, csv_line.
    rewrite fmap_cons. by cbn [concat app]. }
  apply scan_csv_lines. constructor.
  - exists (py "URL"), (py "Status"). split; [done|]. by split.
  - apply Forall_forall. intros row (status & urls & url & H1 & H2 & ->)%elem_of_csv_rows.
    unfold within_field_limit in Hdata. rewrite Forall_forall in Hdata.
    destruct (Hdata _ H1) as [Hs Hu]. rewrite Forall_forall in Hu.
    exists url, status. split; [done|]. split; [by apply Hu|done].
Qed.

(** C9: read back by [csv.reader], the CSV text is the header row
    [URL; Status] followed by exactly one row per URL entry of the report,
    bucket by bucket, and the row holds that URL and the key of the bucket
    that lists it, whatever characters the URL holds (the reader refuses a
    field of more than 131072 characters).  The text itself is the header
    line [URL,Status] followed by one line per row; a field that holds no
    comma, quote, carriage return or line feed is written as it is. *)
Theorem generate_csv_rows (data : dict) :
  generate_csv data
  = py "URL,Status" ++ csv_lineterminator ++ concat (csv_line <$> csv_rows data) /\
  length (csv_rows data) = length (concat data.*2) /\
  (fun row => row !! 0%nat) <$> csv_rows data = Some <$> concat data.*2 /\
  (forall row, row ∈ csv_rows data <->
     exists status urls url,
       (status, urls) ∈ data /\ url ∈ urls /\ row = [url; status]) /\
  (forall url status,
     existsb csv_special url = false -> existsb csv_special status = false ->
     csv_line [url; status] = url ++ py "," ++ status ++ csv_lineterminator) /\
  (within_field_limit data ->
   csv_reader (generate_csv data) = Some ([py "URL"; py "Status"] :: csv_rows data)).
Proof.
  split; [|split; [|split; [|split; [|split]]]].
  - unfold generate_csv. rewrite writerow_buckets. unfold writerow.
    by rewrite <- app_assoc.
  - rewrite <- (length_fmap (fun row => row !! 0%nat)), csv_rows_urls.
    by rewrite length_fmap.
  - apply csv_rows_urls.
  - apply elem_of_csv_rows.
  - intros url status Hu Hs. unfold csv_line, csv_record.
    assert (join [csv_delimiter] (csv_field <$> [url; status])
            = url ++ py "," ++ status) as ->.
    { simpl. by rewrite !csv_field_plain. }
    destruct url as [|c [|c' url]]; by rewrite <- ?app_assoc.
  - apply csv_reader_generate_csv.
Qed.

(** A URL with a comma and one with a quote and a line feed are read back
    as they are. *)
Lemma generate_csv_rows_witness :
  csv_reader (generate_csv [(py "200", [py "http://a.example/x,y"]);
                            (py "error", [[ord "w"; ord "."; 34; 10; ord "z"]%N])])
  = Some [ [py "URL"; py "Status"];
           [py "http://a.example/x,y"; py "200"];
           [[ord "w"; ord "."; 34; 10; ord "z"]%N; py "error"] ].
Proof.
  apply (generate_csv_rows [(py "200", [py "http://a.example/x,y"]);
                            (py "error", [[ord "w"; ord "."; 34; 10; ord "z"]%N])]).
  apply (bool_decide_unpack _). by vm_compute.
Defined.

(** ** The JSON rendering read back *)

Ltac Zify.zify_post_hook ::= Z.to_euclidean_division_equations.

Ltac cases_N :=
  repeat match goal with
  | |- context [N.leb ?a ?b] => destruct (N.leb_spec a b); try lia
  | |- context [N.ltb ?a ?b] => destruct (N.ltb_spec a b); try lia
  | |- context [N.eqb ?a ?b] => destruct (N.eqb_spec a b); try lia
  end.

Lemma hex_value_digit (d : N) : (d < 16)%N -> hex_value (hex_digit d) = Some d.
Proof.
  intros Hd. unfold hex_digit. change (ord "0") with 48%N. change (ord "a") with 97%N.
  unfold hex_value. cases_N; simpl; f_equal; lia.
Qed.

Lemma decode_hex4 (n : N) :
  (n < 0x10000)%N ->
  decode_uXXXX (hex_digit (n / 4096 mod 16)) (hex_digit (n / 256 mod 16))
    (hex_digit (n / 16 mod 16)) (hex_digit (n mod 16)) = Some n.
Proof.
  intros Hn. unfold decode_uXXXX.
  rewrite !hex_value_digit by (apply N.mod_lt; lia). simpl. f_equal.
  pose proof (N.div_mod n 16). pose proof (N.div_mod (n / 16) 16).
  pose proof (N.div_mod (n / 16 / 16) 16).
  pose proof (N.mod_lt n 16). pose proof (N.mod_lt (n / 16) 16).
  pose proof (N.mod_lt (n / 16 / 16) 16).
  assert (n / 256 = n / 16 / 16)%N as E1 by (by rewrite N.Div0.div_div).
  assert (n / 4096 = n / 16 / 16 / 16)%N as E2 by (by rewrite !N.Div0.div_div).
  assert (n / 4096 < 16)%N as E3 by (apply N.Div0.div_lt_upper_bound; lia).
  rewrite (N.mod_small (n / 4096) 16) by done.
  pose proof (N.div_mod (n / 16 / 16) 16).
  rewrite E1, E2 in *. lia.
Qed.

Lemma lor_shiftl_small (a b k : N) :
  (b < 2 ^ k)%N -> N.lor (N.shiftl a k) b = (a * 2 ^ k + b)%N.
Proof.
  intros Hb.
  assert (N.land (N.shiftl a k) b = 0%N) as Hdisj.
  { apply N.bits_inj. intros i. rewrite N.land_spec, N.bits_0.
    destruct (N.lt_ge_cases i k) as [Hi|Hi].
    - by rewrite N.shiftl_spec_low.
    - rewrite <- (N.mod_small b (2 ^ k)) by done.
      rewrite N.mod_pow2_bits_high by done. apply andb_false_r. }
  rewrite <- N.lxor_lor, <- N.add_nocarry_lxor by done.
  by rewrite N.shiftl_mul_pow2.
Qed.

(** The two halves of a surrogate pair, in arithmetic. *)
Lemma surrogate_halves (c : N) :
  (0x10000 <= c < 0x110000)%N ->
  let n := (c - 0x10000)%N in
  N.lor 0xd800 (N.land (N.shiftr n 10) 0x3ff) = (0xd800 + n / 1024)%N /\
  N.lor 0xdc00 (N.land n 0x3ff) = (0xdc00 + n mod 1024)%N /\
  (n / 1024 < 1024)%N /\ (n mod 1024 < 1024)%N.
Proof.
  intros Hc n.
  assert (n < 1024 * 1024)%N as Hn by (unfold n; lia).
  assert (n / 1024 < 1024)%N as Hhi by (by apply N.Div0.div_lt_upper_bound).
  assert (n mod 1024 < 1024)%N as Hlo by (apply N.mod_lt; lia).
  change 0x3ff%N with (N.ones 10). rewrite !N.land_ones, N.shiftr_div_pow2.
  change (2 ^ 10)%N with 1024%N. rewrite (N.mod_small (n / 1024)) by done.
  change 0xd800%N with (N.shiftl 54 10). change 0xdc00%N with (N.shiftl 55 10).
  rewrite !lor_shiftl_small by done.
  rewrite !N.shiftl_mul_pow2. change (2 ^ 10)%N with 1024%N. done.
Qed.

Lemma join_surrogates_halves (c : N) :
  (0x10000 <= c < 0x110000)%N ->
  join_surrogates (0xd800 + (c - 0x10000) / 1024) (0xdc00 + (c - 0x10000) mod 1024) = c.
Proof.
  intros Hc. unfold join_surrogates.
  pose proof (N.div_mod (c - 0x10000) 1024) as Hdm.
  assert ((c - 0x10000) mod 1024 < 1024)%N as Hr by (apply N.mod_lt; lia).
  set (q := ((c - 0x10000) / 1024)%N) in *.
  set (r := ((c - 0x10000) mod 1024)%N) in *.
  rewrite (N.add_comm 0xd800 q), (N.add_comm 0xdc00 r), !N.add_sub.
  rewrite lor_shiftl_small by exact Hr. change (2 ^ 10)%N with 1024%N. lia.
Qed.

(** One step of [scanstring], by the kind of its first characters. *)
Lemma scanstring_plain (c : N) (s : pystr) :
  c <> dquote -> c <> backslash -> (32 <= c)%N ->
  scanstring (c :: s) = cons_char c (scanstring s).
Proof.
  intros H1 H2 H3. cbn [scanstring].
  destruct (N.eqb_spec c dquote); [done|].
  destruct (N.eqb_spec c backslash); [done|].
  destruct (N.ltb_spec c 32); [lia|done].
Qed.

Lemma scanstring_quote (s : pystr) : scanstring (dquote :: s) = Some ([], s).
Proof. reflexivity. Qed.

Lemma scanstring_escaped (esc ch : N) (s : pystr) :
  esc <> ord "u" -> unescape esc = Some ch ->
  scanstring (backslash :: esc :: s) = cons_char ch (scanstring s).
Proof.
  intros H1 H2. cbn [scanstring]. change (backslash =? dquote)%N with false.
  change (backslash =? backslash)%N with true. cbv iota.
  destruct (N.eqb_spec esc (ord "u")); [done|].
  by rewrite H2.
Qed.

Lemma scanstring_u (h1 h2 h3 h4 uni : N) (s : pystr) :
  decode_uXXXX h1 h2 h3 h4 = Some uni -> is_high_surrogate uni = false ->
  scanstring (backslash :: ord "u" :: h1 :: h2 :: h3 :: h4 :: s)
  = cons_char uni (scanstring s).
Proof.
  intros H1 H2. cbn [scanstring]. change (backslash =? dquote)%N with false.
  change (backslash =? backslash)%N with true.
  change (ord "u" =? ord "u")%N with true. cbv iota. rewrite H1, H2. simpl andb.
  destruct s as [|b [|u [|g1 [|g2 [|g3 [|g4 s12]]]]]]; reflexivity.
Qed.

Lemma scanstring_u_pair (h1 h2 h3 h4 g1 g2 g3 g4 uni uni2 : N) (s : pystr) :
  decode_uXXXX h1 h2 h3 h4 = Some uni -> is_high_surrogate uni = true ->
  decode_uXXXX g1 g2 g3 g4 = Some uni2 -> is_low_surrogate uni2 = true ->
  scanstring (backslash :: ord "u" :: h1 :: h2 :: h3 :: h4
              :: backslash :: ord "u" :: g1 :: g2 :: g3 :: g4 :: s)
  = cons_char (join_surrogates uni uni2) (scanstring s).
Proof.
  intros H1 H2 H3 H4. cbn [scanstring]. change (backslash =? dquote)%N with false.
  change (backslash =? backslash)%N with true.
  change (ord "u" =? ord "u")%N with true. cbv iota.
  rewrite H1, H2. simpl andb. cbv iota. by rewrite H3, H4.
Qed.

Lemma scanstring_escape_char (c : N) (s : pystr) :
  scalar_value c ->
  scanstring (escape_char c ++ s) = cons_char c (scanstring s).
Proof.
  intros Hc. unfold escape_char.
  destruct (N.eqb_spec c backslash) as [->|Hbs]; [by apply scanstring_escaped|].
  destruct (N.eqb_spec c dquote) as [->|Hdq]; [by apply scanstring_escaped|].
  destruct (N.eqb_spec c 8) as [->|?]; [by apply scanstring_escaped|].
  destruct (N.eqb_spec c 12) as [->|?]; [by apply scanstring_escaped|].
  destruct (N.eqb_spec c 10) as [->|?]; [by apply scanstring_escaped|].
  destruct (N.eqb_spec c 13) as [->|?]; [by apply scanstring_escaped|].
  destruct (N.eqb_spec c 9) as [->|?]; [by apply scanstring_escaped|].
  destruct (N.leb_spec 32 c) as [H32|H32]; simpl andb.
  - destruct (N.leb_spec c 126) as [H126|H126].
    + by apply scanstring_plain.
    + destruct (N.ltb_spec c 0x10000) as [Hbmp|Hbmp].
      * unfold hex4. cbn [app]. apply scanstring_u; [by apply decode_hex4|].
        unfold is_high_surrogate. destruct Hc as [Hc|Hc]; cases_N; done.
      * cbv zeta. destruct Hc as [Hc|Hc]; [lia|].
        destruct (surrogate_halves c) as (-> & -> & Hhi & Hlo); [lia|].
        unfold hex4. cbn [app].
        rewrite (scanstring_u_pair _ _ _ _ _ _ _ _
                   (0xd800 + (c - 0x10000) / 1024) (0xdc00 + (c - 0x10000) mod 1024)).
        -- rewrite join_surrogates_halves by lia. done.
        -- apply decode_hex4. lia.
        -- unfold is_high_surrogate. cases_N; done.
        -- apply decode_hex4. lia.
        -- unfold is_low_surrogate. cases_N; done.
  - destruct (N.ltb_spec c 0x10000) as [Hbmp|Hbmp]; [|lia].
    unfold hex4. cbn [app]. apply scanstring_u; [by apply decode_hex4|].
    unfold is_high_surrogate. cases_N; done.
Qed.

Lemma scanstring_encode (str rest : pystr) :
  text str ->
  scanstring (flat_map escape_char str ++ dquote :: rest) = Some (str, rest).
Proof.
  induction 1 as [|c str Hc Hstr IH]; [done|].
  cbn [flat_map]. rewrite <- app_assoc, scanstring_escape_char by done.
  by rewrite IH.
Qed.

(** A string that holds a high surrogate followed by a low one is not
    read back: the reader joins the two escapes into one character. *)
Example surrogates_are_joined :
  scanstring (flat_map escape_char [0xd83d; 0xde00]%N ++ [dquote])
  = Some ([0x1f600%N], []).
Proof. reflexivity. Qed.

Lemma skip_ws_newline_indent (level : nat) (s : pystr) :
  skip_ws (newline_indent level ++ s) = skip_ws s.
Proof.
  unfold newline_indent. cbn [app skip_ws]. change (is_ws 10) with true. cbv iota.
  induction level as [|level IH]; [done|].
  cbn [replicate concat]. rewrite <- app_assoc. exact IH.
Qed.

Lemma skip_ws_stop (c : N) (s : pystr) : is_ws c = false -> skip_ws (c :: s) = c :: s.
Proof. intros H. cbn [skip_ws]. by rewrite H. Qed.

Lemma scan_once_S (fuel : nat) (c : N) (s1 : pystr) :
  scan_once (S fuel) (c :: s1)
  = if (c =? dquote)%N then
      '(str, rest) ← scanstring s1; Some (JString str, rest)
    else if (c =? ord "[")%N then
      match skip_ws s1 with
      | c1 :: s2 =>
          if (c1 =? ord "]")%N then Some (JList [], s2)
          else '(values, rest) ← array_loop fuel (c1 :: s2);
               Some (JList values, rest)
      | [] => None
      end
    else if (c =? ord "{")%N then
      match skip_ws s1 with
      | c1 :: s2 =>
          if (c1 =? ord "}")%N then Some (JDict [], s2)
          else if (c1 =? dquote)%N then
            '(pairs, rest) ← object_loop fuel s2;
            Some (JDict pairs, rest)
          else None
      | [] => None
      end
    else None.
Proof. reflexivity. Qed.

Lemma array_loop_S (fuel : nat) (s : pystr) :
  array_loop (S fuel) s
  = '(value, s1) ← scan_once fuel s;
    match skip_ws s1 with
    | c :: s2 =>
        if (c =? ord "]")%N then Some ([value], s2)
        else if (c =? ord ",")%N then
          '(values, rest) ← array_loop fuel (skip_ws s2);
          Some (value :: values, rest)
        else None
    | [] => None
    end.
Proof. reflexivity. Qed.

Lemma object_loop_S (fuel : nat) (s : pystr) :
  object_loop (S fuel) s
  = '(key, s1) ← scanstring s;
    match skip_ws s1 with
    | c :: s2 =>
        if (c =? ord ":")%N then
          '(value, s3) ← scan_once fuel (skip_ws s2);
          match skip_ws s3 with
          | c1 :: s4 =>
              if (c1 =? ord "}")%N then Some ([(key, value)], s4)
              else if (c1 =? ord ",")%N then
                match skip_ws s4 with
                | c2 :: s5 =>
                    if (c2 =? dquote)%N then
                      '(pairs, rest) ← object_loop fuel s5;
                      Some ((key, value) :: pairs, rest)
                    else None
                | [] => None
                end
              else None
          | [] => None
          end
        else None
    | [] => None
    end.
Proof. reflexivity. Qed.

Lemma encode_basestring_ascii_cons (x : pystr) :
  encode_basestring_ascii x = dquote :: flat_map escape_char x ++ [dquote].
Proof. reflexivity. Qed.

Lemma scan_once_string (fuel : nat) (x rest : pystr) :
  text x ->
  scan_once (S fuel) (encode_basestring_ascii x ++ rest) = Some (JString x, rest).
Proof.
  intros Hx. rewrite encode_basestring_ascii_cons. cbn [app].
  rewrite scan_once_S. change (dquote =? dquote)%N with true. cbv iota.
  rewrite <- app_assoc. cbn [app]. by rewrite scanstring_encode.
Qed.

Lemma items_cons_cons (x y : pystr) (lst : list pystr) (level : nat) :
  items (x :: y :: lst) level
  = encode_basestring_ascii x ++ py "," ++ newline_indent (S level)
    ++ items (y :: lst) level.
Proof. unfold items. rewrite !fmap_cons. cbn [join]. by rewrite <- app_assoc. Qed.

Lemma items_head (x : pystr) (lst : list pystr) (level : nat) :
  exists tail, items (x :: lst) level = dquote :: tail.
Proof.
  destruct lst as [|y lst].
  - by eexists.
  - rewrite items_cons_cons. by eexists.
Qed.

Lemma array_loop_items (lst : list pystr) (x : pystr) (level fuel : nat) (rest : pystr) :
  (length lst + 2 <= fuel)%nat -> text x -> Forall text lst ->
  array_loop fuel (items (x :: lst) level ++ newline_indent level ++ py "]" ++ rest)
  = Some (JString <$> (x :: lst), rest).
Proof.
  revert x fuel. induction lst as [|y lst IH]; intros x fuel Hfuel Hx Hlst.
  - destruct fuel as [|[|fuel]]; [simpl in Hfuel; lia..|].
    rewrite array_loop_S. change (items [x] level) with (encode_basestring_ascii x).
    rewrite scan_once_string by done. cbn [mbind option_bind].
    rewrite skip_ws_newline_indent. reflexivity.
  - destruct fuel as [|[|fuel]]; [simpl in Hfuel; lia..|].
    apply Forall_cons in Hlst as [Hy Hlst].
    rewrite array_loop_S, items_cons_cons, <- !app_assoc.
    rewrite scan_once_string by done. cbn [mbind option_bind].
    change (py "," ++ ?s) with (ord "," :: s).
    rewrite skip_ws_stop by done.
    change (ord "," =? ord "]")%N with false.
    change (ord "," =? ord ",")%N with true. cbv iota.
    rewrite skip_ws_newline_indent.
    destruct (items_head y lst level) as [tail Htail].
    assert (skip_ws (items (y :: lst) level ++ newline_indent level ++ py "]" ++ rest)
            = items (y :: lst) level ++ newline_indent level ++ py "]" ++ rest) as ->.
    { rewrite Htail. cbn [app]. by apply skip_ws_stop. }
    rewrite IH; [done | simpl in *; lia | done | done].
Qed.

Lemma scan_once_list (lst : list pystr) (level fuel : nat) (rest : pystr) :
  (length lst + 3 <= fuel)%nat -> Forall text lst ->
  scan_once fuel (iterencode_list lst level ++ rest)
  = Some (JList (JString <$> lst), rest).
Proof.
  intros Hfuel Hlst. destruct fuel as [|fuel]; [lia|].
  destruct lst as [|x lst].
  - reflexivity.
  - apply Forall_cons in Hlst as [Hx Hlst].
    change (iterencode_list (x :: lst) level)
      with (py "[" ++ newline_indent (S level) ++ items (x :: lst) level
            ++ newline_indent level ++ py "]").
    rewrite <- !app_assoc. change (py "[" ++ ?s) with (ord "[" :: s).
    rewrite scan_once_S. change (ord "[" =? dquote)%N with false.
    change (ord "[" =? ord "[")%N with true. cbv iota.
    rewrite skip_ws_newline_indent.
    destruct (items_head x lst level) as [tail Htail].
    pose proof (array_loop_items lst x level fuel rest) as Hloop.
    rewrite Htail in *. cbn [app] in *. rewrite skip_ws_stop by done.
    change (dquote =? ord "]")%N with false. cbv iota.
    rewrite Hloop; [done | simpl in *; lia | done | done].
Qed.

Lemma members_cons_cons (key : pystr) (value : list pystr) (entry : pystr * list pystr)
    (dct : dict) (level : nat) :
  members ((key, value) :: entry :: dct) level
  = (dquote :: member_body key value level)
    ++ py "," ++ newline_indent (S level) ++ members (entry :: dct) level.
Proof.
  unfold members, member_body. rewrite !fmap_cons. cbn [join].
  rewrite encode_basestring_ascii_cons. cbn [app]. by rewrite <- !app_assoc.
Qed.

Lemma members_cons (key : pystr) (value : list pystr) (dct : dict) (level : nat) :
  members ((key, value) :: dct) level
  = dquote :: member_body key value level ++ more_members dct level.
Proof.
  revert key value. induction dct as [|[k v] dct IH]; intros key value.
  - unfold members, member_body, more_members. cbn [fmap list_fmap join concat].
    rewrite encode_basestring_ascii_cons, app_nil_r. cbn [app].
    by rewrite <- !app_assoc.
  - rewrite members_cons_cons, IH. unfold more_members. rewrite fmap_cons.
    cbn [concat app]. by rewrite <- !app_assoc.
Qed.

Lemma iterencode_list_head (lst : list pystr) (level : nat) :
  exists tail, iterencode_list lst level = ord "[" :: tail.
Proof. destruct lst; by eexists. Qed.

Lemma object_loop_members (dct : dict) (key : pystr) (value : list pystr)
    (level fuel : nat) (rest : pystr) :
  (length dct + length (concat dct.*2) + length value + 4 <= fuel)%nat ->
  text key -> Forall text value -> report_text dct ->
  object_loop fuel
    (member_body key value level ++ more_members dct level
     ++ newline_indent level ++ py "}" ++ rest)
  = Some (report_pairs ((key, value) :: dct), rest).
Proof.
  revert key value fuel.
  induction dct as [|[k v] dct IH]; intros key value fuel Hfuel Hkey Hvalue Hdct;
    (destruct fuel as [|fuel]; [lia|]);
    rewrite object_loop_S; unfold member_body; rewrite <- !app_assoc;
    change ([dquote] ++ ?s) with (dquote :: s);
    rewrite scanstring_encode by done; cbn [mbind option_bind];
    change (py ": " ++ ?s) with (ord ":" :: 32%N :: s);
    rewrite skip_ws_stop by done;
    change (ord ":" =? ord ":")%N with true; cbv iota;
    destruct (iterencode_list_head value (S level)) as [tail Htail].
  - assert (forall s, skip_ws (32%N :: iterencode_list value (S level) ++ s)
                      = iterencode_list value (S level) ++ s) as ->.
    { intros s. cbn [skip_ws]. change (is_ws 32) with true. cbv iota.
      rewrite Htail. cbn [app]. by apply skip_ws_stop. }
    rewrite scan_once_list; [|simpl in *; lia|done]. cbn [mbind option_bind].
    unfold more_members. cbn [fmap list_fmap concat app].
    rewrite skip_ws_newline_indent. reflexivity.
  - assert (forall s, skip_ws (32%N :: iterencode_list value (S level) ++ s)
                      = iterencode_list value (S level) ++ s) as ->.
    { intros s. cbn [skip_ws]. change (is_ws 32) with true. cbv iota.
      rewrite Htail. cbn [app]. by apply skip_ws_stop. }
    rewrite scan_once_list; [|simpl in *; lia|done]. cbn [mbind option_bind].
    apply Forall_cons in Hdct as [[Hk Hv] Hdct]. simpl in Hk, Hv.
    unfold more_members. rewrite fmap_cons. cbn [concat].
    fold (more_members dct level). rewrite <- !app_assoc.
    change (py "," ++ ?s) with (ord "," :: s).
    rewrite skip_ws_stop by done.
    change (ord "," =? ord "}")%N with false.
    change (ord "," =? ord ",")%N with true. cbv iota.
    rewrite skip_ws_newline_indent. cbn [app].
    rewrite skip_ws_stop by done.
    change (dquote =? dquote)%N with true. cbv iota.
    rewrite IH; [done| |done..].
    rewrite fmap_cons, concat_cons, length_app in Hfuel. simpl in *. lia.
Qed.

Lemma scan_once_dict (dct : dict) (fuel : nat) (rest : pystr) :
  (length dct + length (concat dct.*2) + 4 <= fuel)%nat -> report_text dct ->
  scan_once fuel (iterencode_dict dct 0 ++ rest) = Some (JDict (report_pairs dct), rest).
Proof.
  intros Hfuel Hdct. destruct fuel as [|fuel]; [lia|].
  destruct dct as [|[key value] dct].
  - reflexivity.
  - apply Forall_cons in Hdct as [[Hk Hv] Hdct]. simpl in Hk, Hv.
    change (iterencode_dict ((key, value) :: dct) 0)
      with (py "{" ++ newline_indent 1 ++ members ((key, value) :: dct) 0
            ++ newline_indent 0 ++ py "}").
    rewrite members_cons, <- !app_assoc. change (py "{" ++ ?s) with (ord "{" :: s).
    rewrite scan_once_S. change (ord "{" =? dquote)%N with false.
    change (ord "{" =? ord "[")%N with false.
    change (ord "{" =? ord "{")%N with true. cbv iota.
    rewrite skip_ws_newline_indent. cbn [app]. rewrite skip_ws_stop by done.
    change (dquote =? ord "}")%N with false.
    change (dquote =? dquote)%N with true. cbv iota.
    rewrite <- !app_assoc.
    rewrite object_loop_members; [done| |done..].
    rewrite fmap_cons, concat_cons, length_app in Hfuel. simpl in *. lia.
Qed.

(** The text is long enough to serve as fuel. *)
Lemma length_items (lst : list pystr) (level : nat) :
  (length lst <= length (items lst level))%nat.
Proof.
  induction lst as [|x [|y lst] IH]; [done|simpl; lia|].
  rewrite items_cons_cons, encode_basestring_ascii_cons. cbn [length] in *.
  rewrite !length_app. cbn [length]. lia.
Qed.

Lemma length_iterencode_list (lst : list pystr) (level : nat) :
  (length lst + 2 <= length (iterencode_list lst level))%nat.
Proof.
  destruct lst as [|x lst]; [done|].
  change (iterencode_list (x :: lst) level)
    with (py "[" ++ newline_indent (S level) ++ items (x :: lst) level
          ++ newline_indent level ++ py "]").
  pose proof (length_items (x :: lst) level).
  rewrite !length_app. change (length (py "[")) with 1%nat.
  change (length (py "]")) with 1%nat. lia.
Qed.

Lemma length_member_body (key : pystr) (value : list pystr) (level : nat) :
  (length value + 2 <= length (member_body key value level))%nat.
Proof.
  unfold member_body. pose proof (length_iterencode_list value (S level)).
  rewrite !length_app. lia.
Qed.

Lemma length_more_members (dct : dict) (level : nat) :
  (length dct + length (concat dct.*2) <= length (more_members dct level))%nat.
Proof.
  induction dct as [|[k v] dct IH]; [done|].
  unfold more_members in *. rewrite !fmap_cons. cbn [concat snd].
  pose proof (length_member_body k v level).
  rewrite !length_app. cbn [length]. change (length (py ",")) with 1%nat. lia.
Qed.

Lemma length_generate_json (dct : dict) :
  dct <> [] ->
  (length dct + length (concat dct.*2) + 3 <= length (generate_json dct))%nat.
Proof.
  destruct dct as [|[key value] dct]; [done|]. intros _.
  change (generate_json ((key, value) :: dct))
    with (py "{" ++ newline_indent 1 ++ members ((key, value) :: dct) 0
          ++ newline_indent 0 ++ py "}").
  rewrite members_cons.
  pose proof (length_member_body key value 0).
  pose proof (length_more_members dct 0).
  rewrite fmap_cons. cbn [concat snd].
  rewrite !length_app. cbn [length]. rewrite !length_app.
  change (length (py "{")) with 1%nat. change (length (py "}")) with 1%nat. lia.
Qed.

(** [dict(pairs)] keeps a list of pairs with distinct keys as it is. *)
Lemma setitem_fresh {V : Type} (d : list (pystr * V)) (k : pystr) (v : V) :
  k ∉ d.*1 -> setitem d k v = d ++ [(k, v)].
Proof.
  induction d as [|[k' v'] d IH]; [done|].
  rewrite fmap_cons, not_elem_of_cons. intros [Hne Hk]. cbn [setitem].
  rewrite decide_False by done. by rewrite IH.
Qed.

Lemma dict_of_pairs_NoDup {V : Type} (pairs : list (pystr * V)) :
  NoDup pairs.*1 -> dict_of_pairs pairs = pairs.
Proof.
  unfold dict_of_pairs. change pairs with ([] ++ pairs) at 1 3.
  generalize (@nil (pystr * V)). induction pairs as [|[k v] pairs IH]; intros acc.
  - intros _. by rewrite app_nil_r.
  - intros Hnd. cbn [fold_left].
    rewrite fmap_app, fmap_cons in Hnd.
    rewrite setitem_fresh.
    + rewrite IH; [by rewrite <- app_assoc|].
      by rewrite !fmap_app, <- app_assoc.
    + apply NoDup_app in Hnd as (_ & Hnd & _). intros Hk.
      apply (Hnd k Hk). by left.
Qed.

Lemma report_pairs_keys (dct : dict) : (report_pairs dct).*1 = dct.*1.
Proof.
  unfold report_pairs. rewrite <- list_fmap_compose.
  apply list_fmap_ext. by intros _ [k v] _.
Qed.

Lemma build_report (dct : dict) :
  NoDup dct.*1 -> build (JDict (report_pairs dct)) = JDict (report_pairs dct).
Proof.
  intros Hnd. cbn [build]. f_equal.
  assert ((fun p : pystr * jvalue => (p.1, build p.2)) <$> report_pairs dct
          = report_pairs dct) as ->.
  { unfold report_pairs. rewrite <- list_fmap_compose. apply list_fmap_ext.
    intros _ [k urls] _. cbn. f_equal. f_equal.
    rewrite <- list_fmap_compose. by apply list_fmap_ext. }
  apply dict_of_pairs_NoDup. by rewrite report_pairs_keys.
Qed.

(** C10: for a report with distinct keys whose strings are text (code
    points below 0x110000 that are not surrogates, which is what decoding
    an uploaded file as UTF-8 yields), reading the JSON text that
    [generate_json] writes gives back the report itself: the same keys in
    the same order, each with the same list of URLs. *)
Theorem json_round_trip (data : dict) :
  NoDup data.*1 -> report_text data ->
  json_loads (generate_json data) = Some (value_of_report data).
Proof.
  intros Hnd Htext. destruct data as [|[key value] dct]; [reflexivity|].
  set (data := (key, value) :: dct) in *.
  unfold json_loads.
  assert (skip_ws (generate_json data) = generate_json data) as ->.
  { change (generate_json data)
      with (ord "{" :: (newline_indent 1 ++ members data 0
                        ++ newline_indent 0 ++ py "}")).
    by apply skip_ws_stop. }
  rewrite <- (app_nil_r (generate_json data)) at 2.
  assert (length data + length (concat data.*2) + 4
          <= S (length (generate_json data)))%nat as Hfuel.
  { assert (data <> []) as Hne by done.
    pose proof (length_generate_json data Hne). lia. }
  unfold generate_json at 2. rewrite scan_once_dict by done.
  cbn [mbind option_bind skip_ws]. f_equal. by apply build_report.
Qed.

Lemma json_round_trip_witness :
  json_loads
    (generate_json
       [(py "200", [py "http://a.example/x,y"; py "www.b.example"]);
        (py "error", [])])
  = Some (value_of_report
            [(py "200", [py "http://a.example/x,y"; py "www.b.example"]);
             (py "error", [])]).
Proof.
  apply json_round_trip.
  - apply (bool_decide_unpack _). by vm_compute.
  - unfold report_text, text, scalar_value.
    apply (bool_decide_unpack _). by vm_compute.
Defined.

(** ** URL extraction *)

Lemma strip_prefix_Some (p s rest : pystr) :
  strip_prefix p s = Some rest -> s = p ++ rest.
Proof.
  revert s. induction p as [|a p IH]; intros [|b s]; simpl; try discriminate.
  - by intros [= <-].
  - by intros [= <-].
  - case_decide; [|discriminate]. subst. intros H. f_equal. by apply IH.
Qed.

Lemma span_spec (P : N -> bool) (s run rest : pystr) :
  span P s = (run, rest) ->
  s = run ++ rest /\ Forall (fun c => P c = true) run /\
  match rest with [] => True | c :: _ => P c = false end.
Proof.
  revert run rest. induction s as [|c s IH]; intros run rest; simpl.
  - by intros [= <- <-].
  - destruct (P c) eqn:Hc.
    + destruct (span P s) as [run' rest'] eqn:E. intros [= <- <-].
      destruct (IH _ _ eq_refl) as (-> & H1 & H2).
      split; [done|]. split; [by constructor | done].
    + intros [= <- <-]. by rewrite Hc.
Qed.

Lemma span_app (P : N -> bool) (run rest : pystr) :
  Forall (fun c => P c = true) run ->
  match rest with [] => True | c :: _ => P c = false end ->
  span P (run ++ rest) = (run, rest).
Proof.
  intros Hrun Hrest. induction Hrun as [|c run Hc Hrun IH]; simpl.
  - destruct rest as [|c rest]; [done|]. simpl. by rewrite Hrest.
  - by rewrite Hc, IH.
Qed.

Lemma re_plus_Some (P : N -> bool) (s run rest : pystr) :
  re_plus P s = Some (run, rest) <->
  s = run ++ rest /\ run <> [] /\ Forall (fun c => P c = true) run /\
  match rest with [] => True | c :: _ => P c = false end.
Proof.
  unfold re_plus. split.
  - destruct (span P s) as [[|c run'] rest'] eqn:E; [discriminate|].
    intros [= <- <-]. apply span_spec in E as (-> & H1 & H2). done.
  - intros (-> & Hne & H1 & H2). rewrite span_app by done.
    by destruct run.
Qed.

Lemma re_lit_Some (p s m rest : pystr) :
  re_lit p s = Some (m, rest) <-> m = p /\ s = p ++ rest.
Proof.
  unfold re_lit. split.
  - destruct (strip_prefix p s) as [r|] eqn:E; [|discriminate].
    simpl. intros [= <- <-]. by apply strip_prefix_Some in E.
  - intros [-> ->]. by rewrite strip_prefix_app.
Qed.

Lemma re_seq_Some (m1 m2 : matcher) (s m rest : pystr) :
  re_seq m1 m2 s = Some (m, rest) <->
  exists a s1 b, m1 s = Some (a, s1) /\ m2 s1 = Some (b, rest) /\ m = a ++ b.
Proof.
  unfold re_seq. split.
  - destruct (m1 s) as [[a s1]|]; [|discriminate]. simpl.
    destruct (m2 s1) as [[b s2]|] eqn:E2; [|discriminate]. simpl.
    intros [= <- <-]. by exists a, s1, b.
  - intros (a & s1 & b & -> & H2 & ->). simpl. by rewrite H2.
Qed.

Lemma re_lit_app (p s : pystr) : re_lit p (p ++ s) = Some (p, s).
Proof. unfold re_lit. by rewrite strip_prefix_app. Qed.

Lemma re_seq_eq (m1 m2 : matcher) (s a s1 b rest : pystr) :
  m1 s = Some (a, s1) -> m2 s1 = Some (b, rest) ->
  re_seq m1 m2 s = Some (a ++ b, rest).
Proof. intros H1 H2. apply re_seq_Some. by exists a, s1, b. Qed.

Lemma re_seq_None_l (m1 m2 : matcher) (s : pystr) :
  m1 s = None -> re_seq m1 m2 s = None.
Proof. intros H. unfold re_seq. by rewrite H. Qed.

(** The tail [://C+] of the first alternative. *)
Lemma scheme_tail_Some (s m rest : pystr) :
  re_seq (re_lit (py "://")) (re_plus url_char) s = Some (m, rest) <->
  exists body, m = py "://" ++ body /\ s = m ++ rest /\ body <> [] /\
    Forall (fun c => url_char c = true) body /\ stops rest.
Proof.
  rewrite re_seq_Some. split.
  - intros (a & s1 & b & [-> ->]%re_lit_Some & (-> & H1 & H2 & H3)%re_plus_Some & ->).
    exists b. by rewrite <- app_assoc.
  - intros (body & -> & -> & H1 & H2 & H3).
    exists (py "://"), (body ++ rest), body. split; [|split; [|done]].
    + apply re_lit_Some. by rewrite <- app_assoc.
    + by apply re_plus_Some.
Qed.

(** What a match of the pattern at the start of a text is. *)
Lemma URL_PATTERN_Some (s m rest : pystr) :
  URL_PATTERN s = Some (m, rest) <->
  exists prefix body,
    prefix ∈ url_prefixes /\ m = prefix ++ body /\ s = m ++ rest /\
    body <> [] /\ Forall (fun c => url_char c = true) body /\ stops rest.
Proof.
  unfold URL_PATTERN, re_alt. split.
  - destruct (re_seq (re_lit (py "http")) _ s) as [[m1 rest1]|] eqn:E1.
    + intros [= -> ->]. apply re_seq_Some in E1
        as (a & s1 & b & [-> ->]%re_lit_Some & Halt & ->).
      unfold re_alt in Halt.
      destruct (re_seq (re_lit (py "s")) _ s1) as [[m2 rest2]|] eqn:E2.
      * injection Halt as -> ->. apply re_seq_Some in E2
          as (a & s2 & b' & [-> ->]%re_lit_Some
              & (body & -> & -> & H1 & H2 & H3)%scheme_tail_Some & ->).
        exists (py "https://"), body. split; [set_solver|].
        split; [done|]. split; [by rewrite <- !app_assoc|done].
      * apply scheme_tail_Some in Halt as (body & -> & -> & H1 & H2 & H3).
        exists (py "http://"), body. split; [set_solver|].
        split; [done|]. split; [by rewrite <- !app_assoc|done].
    + intros (a & s1 & b & [-> ->]%re_lit_Some
              & (-> & H1 & H2 & H3)%re_plus_Some & ->)%re_seq_Some.
      exists (py "www."), b. split; [set_solver|].
      split; [done|]. split; [by rewrite <- !app_assoc|done].
  - intros (prefix & body & Hp & -> & -> & H1 & H2 & H3).
    assert (re_plus url_char (body ++ rest) = Some (body, rest)) as Hplus
      by (by apply re_plus_Some).
    assert (re_seq (re_lit (py "://")) (re_plus url_char) (py "://" ++ body ++ rest)
            = Some (py "://" ++ body, rest)) as Htail.
    { apply scheme_tail_Some. exists body. by rewrite <- app_assoc. }
    rewrite <- app_assoc.
    unfold url_prefixes in Hp. rewrite !elem_of_cons in Hp.
    destruct Hp as [->|[->|[->|Hp]]]; [| | |by apply elem_of_nil in Hp].
    + change (py "http://") with (py "http" ++ py "://").
      rewrite <- !app_assoc.
      rewrite (re_seq_eq _ _ _ (py "http") (py "://" ++ body ++ rest)
                 (py "://" ++ body) rest); [done| |].
      * apply re_lit_app.
      * cbv beta. rewrite re_seq_None_l by reflexivity. exact Htail.
    + change (py "https://") with (py "http" ++ py "s" ++ py "://").
      rewrite <- !app_assoc.
      rewrite (re_seq_eq _ _ _ (py "http") (py "s" ++ py "://" ++ body ++ rest)
                 (py "s" ++ py "://" ++ body) rest); [done| |].
      * apply re_lit_app.
      * cbv beta.
        rewrite (re_seq_eq _ _ _ (py "s") (py "://" ++ body ++ rest)
                   (py "://" ++ body) rest); [done| |done].
        apply re_lit_app.
    + rewrite re_seq_None_l by reflexivity.
      by apply (re_seq_eq _ _ _ _ (body ++ rest)); [apply re_lit_app|].
Qed.

Lemma findall_from_skip (a s : pystr) :
  findall_from (length a) (a ++ s) = findall_from 0 s.
Proof. induction a as [|c a IH]; [done|]. exact IH. Qed.

Lemma findall_match (s m rest : pystr) :
  URL_PATTERN s = Some (m, rest) -> findall s = m :: findall rest.
Proof.
  intros H. pose proof H as (prefix & body & Hp & -> & -> & Hne & _)%URL_PATTERN_Some.
  unfold findall.
  assert (exists c m', prefix ++ body = c :: m') as (c & m' & E).
  { unfold url_prefixes in Hp. rewrite !elem_of_cons in Hp.
    destruct Hp as [->|[->|[->|Hp]]]; [..|by apply elem_of_nil in Hp];
      by eexists _, _. }
  rewrite E in *. cbn [app findall_from] in *. rewrite H.
  replace (length (c :: m') - 1)%nat with (length m') by (simpl; lia).
  by rewrite findall_from_skip.
Qed.

Lemma findall_no_match (c : N) (s : pystr) :
  URL_PATTERN (c :: s) = None -> findall (c :: s) = findall s.
Proof. intros H. unfold findall. cbn [findall_from]. by rewrite H. Qed.

Lemma findall_pieces (n : nat) (s : pystr) :
  (length s <= n)%nat ->
  exists gap pieces,
    s = gap ++ weave pieces /\ findall s = pieces.*1 /\ delimited pieces /\
    Forall (fun p => url_shaped p.1) pieces.
Proof.
  revert s. induction n as [|n IH]; intros s Hn.
  - destruct s; [|simpl in Hn; lia]. by exists [], [].
  - destruct s as [|c s]; [by exists [], []|].
    destruct (URL_PATTERN (c :: s)) as [[m rest]|] eqn:E.
    + pose proof E as (prefix & body & Hp & -> & Hs & Hne & Hbody & Hstop)%URL_PATTERN_Some.
      assert (length rest <= n)%nat as Hlen.
      { apply (f_equal length) in Hs. rewrite !length_app in Hs. simpl in *.
        destruct body; [done|]. simpl in *. lia. }
      destruct (IH rest Hlen) as (gap & pieces & Hrest & Hfind & Hdel & Hall).
      exists [], ((prefix ++ body, gap) :: pieces).
      split; [by rewrite Hs, Hrest|]. split; [|split].
      * rewrite (findall_match _ _ _ E), Hfind. done.
      * split; [by rewrite <- Hrest | done].
      * constructor; [by exists prefix, body | done].
    + assert (length s <= n)%nat as Hlen by (simpl in Hn; lia).
      destruct (IH s Hlen) as (gap & pieces & Hrest & Hfind & Hdel & Hall).
      exists (c :: gap), pieces. split; [by rewrite Hrest|].
      split; [by rewrite findall_no_match|done].
Qed.

Lemma url_prefix_chars (prefix : pystr) :
  prefix ∈ url_prefixes ->
  Forall (fun c => url_char c = true) prefix /\ exists c p, prefix = c :: p.
Proof.
  unfold url_prefixes. rewrite !elem_of_cons.
  intros [->|[->|[->|H]]]; [..|by apply elem_of_nil in H];
    (split; [by apply (bool_decide_unpack _); vm_compute | by eexists _, _]).
Qed.

Lemma url_shaped_chars (m : pystr) :
  url_shaped m -> Forall (fun c => url_char c = true) m /\ exists c m', m = c :: m'.
Proof.
  intros (prefix & body & [Hp (c & p & ->)]%url_prefix_chars & -> & Hne & Hbody).
  split; [by apply Forall_app | by eexists _, _].
Qed.

Lemma url_shaped_match (m rest : pystr) :
  url_shaped m -> stops rest -> URL_PATTERN (m ++ rest) = Some (m, rest).
Proof.
  intros (prefix & body & Hp & -> & Hne & Hbody) Hrest.
  apply URL_PATTERN_Some. by exists prefix, body.
Qed.

Lemma no_match_at_delimiter (c : N) (s : pystr) :
  url_char c = false -> URL_PATTERN (c :: s) = None.
Proof.
  intros Hc. destruct (URL_PATTERN (c :: s)) as [[m rest]|] eqn:E; [|done].
  apply URL_PATTERN_Some in E as (prefix & body & Hp & -> & Hs & Hne & Hbody & _).
  apply url_prefix_chars in Hp as [Hchars (c0 & p & ->)].
  simpl in Hs. injection Hs as -> _.
  apply Forall_cons in Hchars as [Hc0 _]. congruence.
Qed.

Lemma findall_preserves (P : N -> Prop) (text : pystr) :
  Forall P text -> Forall (Forall P) (findall text).
Proof.
  destruct (findall_pieces (length text) text) as (gap & pieces & -> & -> & _ & _);
    [done|].
  intros [_ H]%Forall_app. clear gap.
  induction pieces as [|[m g] pieces IH]; [constructor|].
  simpl in H. apply Forall_app in H as [Hm [_ H]%Forall_app].
  constructor; [done | by apply IH].
Qed.

(** X1: the matches [re.findall] returns are successive pieces of the
    text that do not overlap, in the order of the text, and after each of
    them the text ends or goes on with whitespace, an angle bracket or a
    double quote: a match is never cut short. *)
Theorem findall_decomposition (text : pystr) :
  exists gap pieces,
    text = gap ++ weave pieces /\ findall text = pieces.*1 /\ delimited pieces.
Proof.
  destruct (findall_pieces (length text) text) as (gap & pieces & H1 & H2 & H3 & _);
    [done|].
  by exists gap, pieces.
Qed.

(** X2: every URL that [re.findall] returns begins with [http://],
    [https://] or [www.], goes on with at least one more character, and
    holds no whitespace, angle bracket or double quote; matched on its own,
    the pattern takes all of it. *)
Theorem findall_url_shape (text : pystr) :
  Forall (fun m => url_shaped m /\ Forall (fun c => url_char c = true) m /\
                   URL_PATTERN m = Some (m, [])) (findall text).
Proof.
  destruct (findall_pieces (length text) text) as (gap & pieces & _ & -> & _ & H);
    [done|].
  apply Forall_fmap. eapply Forall_impl; [exact H|].
  intros [m g] Hm. simpl in *. split; [done|]. split.
  - by apply url_shaped_chars.
  - rewrite <- (app_nil_r m) at 1. by apply url_shaped_match.
Qed.

(** X3: a text made of URLs of that shape, separated by one character
    each that the class of the pattern excludes (a space, a line feed, a
    bracket, a quote), is split back into exactly these URLs. *)
Theorem findall_separated_urls (sep : N) (urls : list pystr) :
  url_char sep = false -> Forall url_shaped urls ->
  findall (join [sep] urls) = urls.
Proof.
  intros Hsep Hurls. induction Hurls as [|m [|m' urls] Hm Hurls IH].
  - reflexivity.
  - cbn [join]. rewrite <- (app_nil_r m) at 1.
    by rewrite (findall_match _ m []) by (by apply url_shaped_match).
  - change (join [sep] (m :: m' :: urls))
      with (m ++ sep :: join [sep] (m' :: urls)).
    rewrite (findall_match _ m (sep :: join [sep] (m' :: urls)))
      by (by apply url_shaped_match).
    rewrite findall_no_match by (by apply no_match_at_delimiter).
    by rewrite IH.
Qed.

Lemma findall_separated_urls_witness :
  findall (join [ord " "] [py "http://a.example/x,y"; py "www.b.example"])
  = [py "http://a.example/x,y"; py "www.b.example"].
Proof.
  apply findall_separated_urls.
  - reflexivity.
  - repeat constructor.
    + exists (py "http://"), (py "a.example/x,y").
      split; [set_solver|]. split; [reflexivity|]. split; [discriminate|].
      apply (bool_decide_unpack _). by vm_compute.
    + exists (py "www."), (py "b.example").
      split; [set_solver|]. split; [reflexivity|]. split; [discriminate|].
      apply (bool_decide_unpack _). by vm_compute.
Defined.

(** ** Reading the uploads *)

Lemma text_cons (c : N) (s : pystr) : scalar_value c -> text s -> text (c :: s).
Proof. intros. by constructor. Qed.

Lemma utf8_decode_text_bounded (n : nat) (bs : list N) (s : pystr) :
  (length bs <= n)%nat -> utf8_decode bs = Some s -> text s.
Proof.
  revert bs s. induction n as [|n IH]; intros bs s Hn.
  { destruct bs; [|simpl in Hn; lia]. intros [= <-]. constructor. }
  destruct bs as [|b0 r0]; [intros [= <-]; constructor|].
  cbn [utf8_decode length] in *. unfold is_continuation.
  destruct (N.ltb_spec b0 0x80).
  { intros (s' & Hs' & ->)%fmap_Some. apply text_cons; [left; lia|].
    apply (IH r0); [lia|done]. }
  destruct (N.leb_spec 0xc2 b0); simpl andb.
  2:{ destruct (N.leb_spec 0xe0 b0); [lia|]. simpl andb.
      destruct (N.leb_spec 0xf0 b0); [lia|]. discriminate. }
  destruct (N.leb_spec b0 0xdf).
  { destruct r0 as [|b1 r1]; [discriminate|].
    destruct (N.leb_spec 0x80 b1); [|discriminate].
    destruct (N.leb_spec b1 0xbf); [|discriminate]. simpl andb. cbv iota.
    intros (s' & Hs' & ->)%fmap_Some. apply text_cons; [left; lia|].
    apply (IH r1); [simpl in *; lia|done]. }
  destruct (N.leb_spec 0xe0 b0); [|lia]. simpl andb.
  destruct (N.leb_spec b0 0xef).
  { destruct r0 as [|b1 [|b2 r2]]; [discriminate..|].
    match goal with |- (if ?c then _ else _) = _ -> _ => destruct c eqn:Hc end;
      [|discriminate].
    rewrite !andb_true_iff, !N.leb_le in Hc. destruct Hc as [[Hlo Hhi] [Hc2 Hc2']].
    intros (s' & Hs' & ->)%fmap_Some. apply text_cons.
    - revert Hlo Hhi. unfold scalar_value.
      destruct (N.eqb_spec b0 0xe0), (N.eqb_spec b0 0xed); lia.
    - apply (IH r2); [simpl in *; lia|done]. }
  destruct (N.leb_spec 0xf0 b0); [|lia]. simpl andb.
  destruct (N.leb_spec b0 0xf4); [|discriminate].
  destruct r0 as [|b1 [|b2 [|b3 r3]]]; [discriminate..|].
  match goal with |- (if ?c then _ else _) = _ -> _ => destruct c eqn:Hc end;
    [|discriminate].
  rewrite !andb_true_iff, !N.leb_le in Hc.
  destruct Hc as [[[Hlo Hhi] [Hc2 Hc2']] [Hc3 Hc3']].
  intros (s' & Hs' & ->)%fmap_Some. apply text_cons.
  - revert Hlo Hhi. unfold scalar_value.
    destruct (N.eqb_spec b0 0xf0), (N.eqb_spec b0 0xf4); lia.
  - apply (IH r3); [simpl in *; lia|done].
Qed.

(** X4: whatever bytes an upload holds, if [decode("utf-8")] accepts them
    the text it gives holds only code points below 0x110000 that are not
    surrogates. *)
Theorem utf8_decode_gives_text (bs : list N) (s : pystr) :
  utf8_decode bs = Some s -> text s.
Proof. apply (utf8_decode_text_bounded (length bs)). lia. Qed.

Lemma utf8_decode_gives_text_witness :
  text [104; 233; 0x20ac; 0x1f600]%N.
Proof.
  apply (utf8_decode_gives_text
           [104; 0xc3; 0xa9; 0xe2; 0x82; 0xac; 0xf0; 0x9f; 0x98; 0x80]%N).
  reflexivity.
Defined.

(** X5: an upload made of ASCII bytes only is read as the same sequence
    of characters. *)
Theorem utf8_decode_ascii (bs : list N) :
  Forall (fun b => (b < 0x80)%N) bs -> utf8_decode bs = Some bs.
Proof.
  induction 1 as [|b bs Hb Hbs IH]; [done|].
  cbn [utf8_decode]. destruct (N.ltb_spec b 0x80); [|lia]. by rewrite IH.
Qed.

Lemma utf8_decode_ascii_witness :
  utf8_decode (py "see http://a.example") = Some (py "see http://a.example").
Proof.
  apply utf8_decode_ascii. apply (bool_decide_unpack _). by vm_compute.
Defined.

(** ** More on the dispatcher *)

Lemma run_app (s : batch) (evs1 evs2 : list event) :
  run s (evs1 ++ evs2) = s' ← run s evs1; run s' evs2.
Proof.
  revert s. induction evs1 as [|ev evs1 IH]; intros s; [done|].
  simpl. destruct (step s ev) as [s1|]; simpl; [apply IH|done].
Qed.

(** A step changes the task it names and no other. *)
Lemma step_tasks (s s' : batch) (ev : event) :
  step s ev = Some s' ->
  exists i t t',
    tasks s !! i = Some t /\ tasks s' = <[i := t']> (tasks s) /\
    ((ev = Acquire i /\ exists u, t = Waiting u /\ t' = InFlight u)
     \/ (exists u r, ev = Resolve i r /\ t = InFlight u /\
                     t' = Done (fetch_status u r))).
Proof.
  destruct ev as [i|i r]; simpl.
  - destruct (tasks s !! i) as [[u|u|c]|] eqn:Hi; try discriminate.
    destruct (sem_value s); [discriminate|]. intros [= <-].
    exists i, (Waiting u), (InFlight u). split; [done|]. split; [done|].
    left. split; [done|]. by exists u.
  - destruct (tasks s !! i) as [[u|u|c]|] eqn:Hi; try discriminate.
    intros [= <-]. exists i, (InFlight u), (Done (fetch_status u r)).
    split; [done|]. split; [done|]. right. by exists u, r.
Qed.

(** A coroutine that has ended stays as it is. *)
Lemma step_done (s s' : batch) (ev : event) (j : nat) (c : completion (pystr * status)) :
  step s ev = Some s' -> tasks s !! j = Some (Done c) ->
  tasks s' !! j = Some (Done c).
Proof.
  intros (i & t & t' & Hi & -> & Hcase)%step_tasks Hj.
  destruct (decide (i = j)) as [->|Hne].
  - rewrite Hi in Hj. injection Hj as ->.
    destruct Hcase as [(_ & u & ? & _)|(u & r & _ & ? & _)]; discriminate.
  - by rewrite list_lookup_insert_ne.
Qed.

Lemma run_done (s s' : batch) (evs : list event) (j : nat)
    (c : completion (pystr * status)) :
  run s evs = Some s' -> tasks s !! j = Some (Done c) ->
  tasks s' !! j = Some (Done c).
Proof.
  revert s. induction evs as [|ev evs IH]; intros s; simpl.
  - by intros [= <-].
  - destruct (step s ev) as [s1|] eqn:Hstep; [|discriminate]. simpl.
    intros Hrun Hj. apply (IH s1 Hrun). by eapply step_done.
Qed.

Lemma raised_in_lookup (ts : list task) (i : nat) (e : exn) :
  ts !! i = Some (Done (Propagates e)) -> exists e', raised_in ts = Some e'.
Proof.
  revert i. induction ts as [|t ts IH]; intros i; [done|].
  destruct i as [|i]; simpl.
  - intros [= ->]. by exists e.
  - intros Hi. destruct (IH i Hi) as [e' He'].
    destruct t as [u|u|[r|e0]]; eauto.
Qed.

(** X6: the slot a coroutine holds is given back however the coroutine
    ends: whenever no coroutine is waiting at the semaphore, the counter
    and the number of requests in flight add up to 10, and once every
    coroutine has ended, by a return or by an exception, the counter is
    back at 10. *)
Theorem semaphore_slots_are_returned (urls : list pystr) (evs : list event) (s : batch) :
  run (start urls) evs = Some s -> waiting s = 0%nat ->
  (sem_value s + in_flight s = concurrency_limit)%nat /\
  (in_flight s = 0%nat -> sem_value s = concurrency_limit).
Proof.
  intros Hrun _.
  pose proof (invariant_run urls evs 0 _ _ (invariant_start urls) Hrun) as Hinv.
  pose proof (inv_sem _ _ _ Hinv) as Hsem.
  split; [done | lia].
Qed.

Lemma semaphore_slots_are_returned_witness :
  exists s,
    run (start [py "http://a.example"; py "http://b.example"])
      [Acquire 0; Acquire 1; Resolve 0 (Raises (mk_exn false false false []));
       Resolve 1 (Response 200)] = Some s /\
    sem_value s = concurrency_limit.
Proof.
  eexists. split; [reflexivity|].
  apply (semaphore_slots_are_returned
           [py "http://a.example"; py "http://b.example"]
           [Acquire 0; Acquire 1; Resolve 0 (Raises (mk_exn false false false []));
            Resolve 1 (Response 200)] _ eq_refl); reflexivity.
Defined.

(** The first [k] coroutines let through, in order. *)
Lemma run_acquire_first (urls : list pystr) (k : nat) :
  (k <= concurrency_limit)%nat -> (k <= length urls)%nat ->
  run (start urls) (Acquire <$> seq 0 k)
  = Some {| sem_value := concurrency_limit - k;
            tasks := (InFlight <$> take k urls) ++ (Waiting <$> drop k urls);
            requests := take k urls;
            raised := None |}.
Proof.
  induction k as [|k IH]; intros Hk Hlen.
  - reflexivity.
  - rewrite seq_S, fmap_app, run_app, IH by lia. simpl.
    destruct (lookup_lt_is_Some_2 urls k) as [u Hu]; [lia|].
    assert (length (InFlight <$> take k urls) = k) as Hlk
      by (rewrite length_fmap, length_take; lia).
    rewrite lookup_app_r by lia. rewrite Hlk, Nat.sub_diag.
    rewrite (drop_S _ _ _ Hu). simpl.
    destruct (concurrency_limit - k)%nat as [|v] eqn:Hv; [lia|].
    simpl. f_equal. f_equal.
    + unfold concurrency_limit in *. lia.
    + rewrite insert_app_r_alt by lia. rewrite Hlk, Nat.sub_diag. simpl.
      rewrite (take_S_r _ _ _ Hu), fmap_app, <- app_assoc. done.
    + by rewrite (take_S_r _ _ _ Hu).
Qed.

(** X8: the limit is reached: with at least 10 URLs, letting the first 10
    coroutines through puts exactly 10 requests in flight, and then no
    coroutine is let through until a request has ended. *)
Theorem limit_is_reached (urls : list pystr) :
  (concurrency_limit <= length urls)%nat ->
  exists s,
    run (start urls) (Acquire <$> seq 0 concurrency_limit) = Some s /\
    in_flight s = concurrency_limit /\
    forall i, step s (Acquire i) = None.
Proof.
  intros Hlen. eexists. split; [by apply run_acquire_first|]. split.
  - rewrite in_flight_count. simpl tasks. rewrite count_app.
    assert (forall l : list pystr, count is_in_flight (InFlight <$> l) = length l) as H1.
    { induction l as [|x l IH]; [done|]. rewrite fmap_cons, count_cons, IH. done. }
    assert (forall l : list pystr, count is_in_flight (Waiting <$> l) = 0%nat) as H2.
    { induction l as [|x l IH]; [done|]. by rewrite fmap_cons, count_cons, IH. }
    rewrite H1, H2, length_take. lia.
  - intros i. unfold step. cbn [sem_value]. rewrite Nat.sub_diag.
    by destruct (_ !! i) as [[?|?|?]|].
Qed.

Lemma limit_is_reached_witness :
  exists s,
    run (start (replicate 12 (py "http://a.example")))
      (Acquire <$> seq 0 concurrency_limit) = Some s /\
    in_flight s = concurrency_limit.
Proof.
  destruct (limit_is_reached (replicate 12 (py "http://a.example")))
    as (s & H1 & H2 & _).
  - rewrite length_replicate. unfold concurrency_limit. lia.
  - exists s. split; [exact H1 | exact H2].
Defined.

(** X9: an exception that leaves one coroutine is final for the batch:
    however the other coroutines go on, [check_urls] raises and returns no
    report. *)
Theorem raised_probe_aborts_batch (urls : list pystr) (evs evs' : list event)
    (s s' : batch) (i : nat) (e : exn) :
  run (start urls) evs = Some s ->
  tasks s !! i = Some (Done (Propagates e)) ->
  run s evs' = Some s' ->
  exists e', check_urls urls (evs ++ evs') = Some (Propagates e').
Proof.
  intros Hrun Hi Hrun'.
  pose proof (run_done _ _ _ _ _ Hrun' Hi) as Hi'.
  destruct (raised_in_lookup _ _ _ Hi') as [e0 He0].
  pose proof (invariant_run urls evs 0 _ _ (invariant_start urls) Hrun) as Hinv.
  pose proof (inv_raised _ _ _ (invariant_run urls evs' _ _ _ Hinv Hrun')) as Hraised.
  destruct (raised s') as [e'|] eqn:He'.
  - exists e'. unfold check_urls. rewrite run_app, Hrun. simpl. rewrite Hrun'. simpl.
    unfold gather. by rewrite He'.
  - rewrite (proj1 Hraised eq_refl) in He0. discriminate.
Qed.

Lemma raised_probe_aborts_batch_witness :
  exists e',
    check_urls [py "http://a.example"; py "http://b.example"]
      ([Acquire 0; Resolve 0 (Raises (mk_exn false false false []))]
       ++ [Acquire 1; Resolve 1 (Response 200)])
    = Some (Propagates e').
Proof.
  eapply (raised_probe_aborts_batch
            [py "http://a.example"; py "http://b.example"]
            [Acquire 0; Resolve 0 (Raises (mk_exn false false false []))]
            [Acquire 1; Resolve 1 (Response 200)] _ _ 0);
    reflexivity.
Defined.

(** Every ended coroutine holds what [fetch_status] made of the end of its
    own request. *)
Lemma done_tasks_resolved (urls : list pystr) (evs pre : list event) (n : nat)
    (s s' : batch) :
  invariant urls n s ->
  (forall i c, tasks s !! i = Some (Done c) ->
     exists url r, urls !! i = Some url /\ Resolve i r ∈ pre /\ c = fetch_status url r) ->
  run s evs = Some s' ->
  forall i c, tasks s' !! i = Some (Done c) ->
    exists url r, urls !! i = Some url /\ Resolve i r ∈ pre ++ evs /\
                  c = fetch_status url r.
Proof.
  revert pre n s. induction evs as [|ev evs IH]; intros pre n s Hinv Hdone; simpl.
  - intros [= <-] i c Hi. rewrite app_nil_r. by apply Hdone.
  - destruct (step s ev) as [s1|] eqn:Hstep; [|discriminate]. simpl. intros Hrun.
    replace (pre ++ ev :: evs) with ((pre ++ [ev]) ++ evs) by (by rewrite <- app_assoc).
    apply (IH (pre ++ [ev]) (S n) s1); [by eapply invariant_step| |done].
    intros j c Hj.
    destruct (step_tasks _ _ _ Hstep) as (i & t & t' & Hi & Ht & Hcase).
    rewrite Ht in Hj. destruct (decide (i = j)) as [->|Hne].
    + rewrite list_lookup_insert_eq in Hj by (by eapply lookup_lt_Some).
      injection Hj as ->.
      destruct Hcase as [(_ & u & _ & ?)|(u & r & -> & -> & Hc)]; [discriminate|].
      injection Hc as ->. exists u, r. split; [|split; [set_solver|done]].
      pose proof (inv_tasks _ _ _ Hinv) as Hf.
      destruct (Forall2_lookup_r _ _ _ _ _ Hf Hi) as (url & Hurl & Hfor).
      simpl in Hfor. by subst.
    + rewrite list_lookup_insert_ne in Hj by done.
      destruct (Hdone j c Hj) as (url & r & H1 & H2 & H3).
      exists url, r. split; [done|]. split; [set_solver|done].
Qed.

(** X10: in a finished batch the result at position [i] is the URL at
    position [i] together with what [fetch_status] makes of the end of that
    URL's own request; how the other requests end has no part in it. *)
Theorem result_depends_on_own_request (urls : list pystr) (evs : list event)
    (s : batch) (results : list (pystr * status)) (i : nat) (url : pystr) (st : status) :
  run (start urls) evs = Some s -> gather s = Some (Returns results) ->
  results !! i = Some (url, st) ->
  urls !! i = Some url /\
  exists r, Resolve i r ∈ evs /\ fetch_status url r = Returns (url, st).
Proof.
  intros Hrun Hg Hi. apply gather_Returns in Hg.
  assert (tasks s !! i = Some (Done (Returns (url, st)))) as Ht
    by (by rewrite Hg, list_lookup_fmap, Hi).
  assert (forall j c, tasks (start urls) !! j = Some (Done c) ->
            exists url r, urls !! j = Some url /\ Resolve j r ∈ @nil event /\
                          c = fetch_status url r) as Hstart.
  { intros j c Hj. simpl in Hj. rewrite list_lookup_fmap in Hj.
    by destruct (urls !! j). }
  destruct (done_tasks_resolved urls evs [] 0 (start urls) s
              (invariant_start urls) Hstart Hrun i _ Ht)
    as (url' & r & H1 & H2 & H3).
  assert (url' = url) as ->.
  { destruct r as [k|e]; simpl in H3; [by injection H3|].
    by destruct (isinstance_ClientError e), (isinstance_TimeoutError e),
      (isinstance_Exception e); simplify_eq. }
  split; [done|]. by exists r.
Qed.

Lemma result_depends_on_own_request_witness :
  exists r,
    Resolve 1 r ∈ [Acquire 1; Acquire 0; Resolve 1 (Raises connection_refused);
                   Resolve 0 (Response 200)] /\
    fetch_status (py "http://b.example") r
    = Returns (py "http://b.example", SStr (py "error")).
Proof.
  eapply (result_depends_on_own_request
            [py "http://a.example"; py "http://b.example"]
            [Acquire 1; Acquire 0; Resolve 1 (Raises connection_refused);
             Resolve 0 (Response 200)] _ _ 1);
    reflexivity.
Defined.

(** ** More on the prober and the aggregator *)

(** X11: [fetch_status] ends in one of two ways only: it returns a pair
    whose first component is the URL it was given, or the exception raised
    by the request leaves it unchanged, and this happens exactly for an
    exception that is an instance of none of [aiohttp.ClientError],
    [asyncio.TimeoutError] and [Exception]. *)
Theorem fetch_status_returns_or_reraises (url : pystr) (r : request_end) :
  (handled r = true /\ exists st, fetch_status url r = Returns (url, st)) \/
  (handled r = false /\ exists e, r = Raises e /\ fetch_status url r = Propagates e).
Proof.
  destruct r as [n|e]; simpl.
  - left. split; [done|]. by eexists.
  - destruct (isinstance_ClientError e), (isinstance_TimeoutError e),
      (isinstance_Exception e); simpl;
      (left; split; [done|]; by eexists) || (right; split; [done|]; by exists e).
Qed.

(** The clause for [aiohttp.ClientError] is tried first: an exception
    that is both a [ClientError] and a [TimeoutError] is reported with the
    status [error], not [timeout]. *)
Remark client_timeout_is_reported_as_error (url : pystr) (e : exn) :
  isinstance_ClientError e = true -> isinstance_TimeoutError e = true ->
  fetch_status url (Raises e) = Returns (url, SStr (py "error")) /\
  outcome_of (SStr (py "error")) <> Timeout.
Proof.
  intros Hc Ht. split; [by apply client_error_clause_first | discriminate].
Qed.

Lemma getitem_append_keys (d d' : dict) (k u : pystr) :
  getitem_append d k u = Some d' -> d'.*1 = d.*1 /\ k ∈ d.*1.
Proof.
  revert d'. induction d as [|[k' v] d IH]; intros d'; simpl; [discriminate|].
  case_decide as Hk.
  - intros [= <-]. subst. split; [done | by left].
  - destruct (getitem_append d k u) as [rest'|]; [|discriminate]. simpl.
    intros [= <-]. destruct (IH _ eq_refl) as [H1 H2].
    split; [by rewrite !fmap_cons, H1 | by right].
Qed.

Lemma getitem_append_is_Some (d : dict) (k u : pystr) :
  k ∈ d.*1 -> is_Some (getitem_append d k u).
Proof.
  induction d as [|[k' v] d IH]; simpl; [by intros ?%elem_of_nil|].
  intros Hk. case_decide as Hkk; [by eexists|].
  destruct IH as [rest' ->]; [set_solver | by eexists].
Qed.

(** X12: the loop of [check_urls] fails with [KeyError] exactly when some
    result's bucket key is missing from the dictionary it fills; the keys
    of the dictionary are never changed by it. *)
Theorem categorize_KeyError (results : list (pystr * status)) (d : dict) :
  (categorize results d = None <->
   exists url st, (url, st) ∈ results /\ bucket_of st ∉ d.*1) /\
  (forall d', categorize results d = Some d' -> d'.*1 = d.*1).
Proof.
  revert d. induction results as [|[url st] results IH]; intros d; simpl.
  - split; [|by intros d' [= <-]].
    split; [discriminate | by intros (? & ? & ?%elem_of_nil & _)].
  - destruct (getitem_append d (bucket_of st) url) as [d1|] eqn:E; simpl.
    + apply getitem_append_keys in E as [Hkeys Hin].
      destruct (IH d1) as [IH1 IH2]. rewrite Hkeys in IH1. split.
      * rewrite IH1. split.
        -- intros (u & s & H1 & H2). exists u, s. split; [by right|done].
        -- intros (u & s & [[= -> ->]|H1]%elem_of_cons & H2); [done|].
           by exists u, s.
      * intros d' Hd'. by rewrite (IH2 d' Hd').
    + split; [|discriminate]. split; [|done]. intros _. exists url, st.
      split; [by left|]. intros Hin.
      destruct (getitem_append_is_Some d (bucket_of st) url Hin) as [? ?]. congruence.
Qed.

Lemma aggregate_total (results : list (pystr * status)) :
  exists report,
    aggregate results = Some report /\ report.*1 = bucket_keys /\
    concat report.*2 ≡ₚ results.*1.
Proof.
  eexists. split; [apply aggregate_spec|]. split.
  - rewrite <- list_fmap_compose. apply list_fmap_id.
  - rewrite <- list_fmap_compose.
    apply (buckets_permutation results bucket_keys bucket_keys_NoDup).
    intros st. rewrite <- bucket_of_table. apply bucket_of_key.
Qed.

(** X13: nothing is lost or added by the aggregator, also when a URL occurs
    in several results: the buckets of the report, taken together, are the
    URLs of the results, each as often as it occurs there. *)
Theorem aggregate_keeps_every_result (results : list (pystr * status)) :
  exists report,
    aggregate results = Some report /\
    concat report.*2 ≡ₚ results.*1 /\
    length (concat report.*2) = length results.
Proof.
  destruct (aggregate_total results) as (report & H1 & _ & H2).
  exists report. split; [done|]. split; [done|]. by rewrite H2, length_fmap.
Qed.

Lemma urls_for_app (b : pystr) (r1 r2 : list (pystr * status)) :
  urls_for b (r1 ++ r2) = urls_for b r1 ++ urls_for b r2.
Proof. unfold urls_for. by rewrite filter_app, fmap_app. Qed.

(** X14: aggregating two lists of results one after the other gives,
    bucket by bucket, the URLs of the first report followed by those of the
    second. *)
Theorem aggregate_app (r1 r2 : list (pystr * status)) :
  exists rep1 rep2 rep,
    aggregate r1 = Some rep1 /\ aggregate r2 = Some rep2 /\
    aggregate (r1 ++ r2) = Some rep /\
    rep = zip_with (fun e1 e2 => (e1.1, e1.2 ++ e2.2)) rep1 rep2.
Proof.
  eexists _, _, _. split; [apply aggregate_spec|].
  split; [apply aggregate_spec|]. split; [apply aggregate_spec|].
  unfold bucket_keys. cbn [fmap list_fmap zip_with fst snd].
  by rewrite !urls_for_app.
Qed.

(** X15: when [check_urls] returns a report, every coroutine has been
    let through and resolved (two events per URL), the report has the six
    keys, and its buckets hold exactly the URLs it was given, each as often
    as it was given. *)
Theorem check_urls_report (urls : list pystr) (evs : list event) (report : dict) :
  check_urls urls evs = Some (Returns report) ->
  report.*1 = bucket_keys /\
  concat report.*2 ≡ₚ urls /\
  length evs = (2 * length urls)%nat.
Proof.
  intros (s & results & Hrun & Hg & Hagg)%check_urls_returns.
  destruct (aggregate_total results) as (report' & H1 & H2 & H3).
  assert (report' = report) as -> by congruence.
  pose proof (invariant_run urls evs 0 _ _ (invariant_start urls) Hrun)
    as [_ Ht _ Hev _].
  pose proof Hg as Hg'. apply gather_Returns in Hg'.
  rewrite in_flight_count, waiting_count, Hg', !count_returned in Hev by done.
  rewrite Hg' in Ht. apply task_for_returned in Ht. rewrite Ht in H3.
  split; [done|]. split; [done|]. simpl in Hev. lia.
Qed.

Lemma check_urls_report_witness :
  exists report,
    check_urls [py "http://a.example"; py "http://b.example"]
      [Acquire 1; Acquire 0; Resolve 1 (Raises connection_refused);
       Resolve 0 (Response 200)] = Some (Returns report) /\
    concat report.*2 ≡ₚ [py "http://a.example"; py "http://b.example"].
Proof.
  eexists. split; [reflexivity|].
  eapply (check_urls_report [py "http://a.example"; py "http://b.example"]
            [Acquire 1; Acquire 0; Resolve 1 (Raises connection_refused);
             Resolve 0 (Response 200)]).
  reflexivity.
Defined.

(** ** More on the CSV and JSON texts *)

Lemma count_char_app (c : N) (a b : pystr) :
  count_char c (a ++ b) = (count_char c a + count_char c b)%nat.
Proof. unfold count_char. by rewrite filter_app, length_app. Qed.

Lemma count_char_cons (c x : N) (s : pystr) :
  count_char c (x :: s) = ((if decide (x = c) then 1 else 0) + count_char c s)%nat.
Proof. unfold count_char. rewrite filter_cons. by case_decide. Qed.

Lemma count_char_absent (c : N) (s : pystr) : c ∉ s -> count_char c s = 0%nat.
Proof.
  induction s as [|x s IH]; [done|]. rewrite not_elem_of_cons. intros [Hne Hs].
  rewrite count_char_cons, decide_False by done. by rewrite IH.
Qed.

Lemma count_char_csv_field (c : N) (f : pystr) :
  c <> csv_quotechar -> count_char c (csv_field f) = count_char c f.
Proof.
  intros Hc. unfold csv_field. destruct (existsb csv_special f); [|done].
  rewrite !count_char_app. change (count_char c [csv_quotechar])
    with (count_char c (csv_quotechar :: [])).
  rewrite count_char_cons, decide_False by done. simpl.
  rewrite Nat.add_0_r. induction f as [|x f IH]; [done|].
  cbn [flat_map]. rewrite count_char_app, IH, (count_char_cons c x f).
  f_equal. unfold csv_double_quote. destruct (N.eqb_spec x csv_quotechar) as [->|Hx].
  - rewrite !count_char_cons, !decide_False by done. done.
  - rewrite count_char_cons. by case_decide.
Qed.

Lemma count_lf_csv_line (url status : pystr) :
  10%N ∉ url -> 10%N ∉ status -> count_char 10 (csv_line [url; status]) = 1%nat.
Proof.
  intros Hu Hs. unfold csv_line.
  assert (csv_record [url; status]
          = csv_field url ++ [csv_delimiter] ++ csv_field status) as ->.
  { unfold csv_record. by destruct url as [|? [|? ?]]. }
  rewrite !count_char_app, !count_char_csv_field by done.
  rewrite (count_char_absent 10 url Hu), (count_char_absent 10 status Hs).
  reflexivity.
Qed.

Lemma count_lf_csv_rows (data : dict) :
  single_line data ->
  count_char 10 (concat (csv_line <$> csv_rows data)) = length (concat data.*2).
Proof.
  induction 1 as [|[status urls] data [Hk Hurls] Hdata IH]; [done|].
  simpl in Hk, Hurls. cbn [csv_rows flat_map]. fold (csv_rows data).
  rewrite fmap_app, concat_app, count_char_app, IH.
  rewrite fmap_cons. cbn [concat snd]. rewrite length_app. f_equal.
  clear IH Hdata. induction Hurls as [|url urls Hu Hurls IH]; [done|].
  rewrite !fmap_cons. cbn [concat length].
  rewrite count_char_app, count_lf_csv_line, IH by done. done.
Qed.

(** X16: when no key and no URL of the report holds a line feed (no URL
    that [re.findall] returns does), the CSV text has one line feed per URL
    entry and one for the header: every row is one line. *)
Theorem generate_csv_line_count (data : dict) :
  single_line data ->
  count_char 10 (generate_csv data) = S (length (concat data.*2)).
Proof.
  intros Hdata. unfold generate_csv. rewrite writerow_buckets.
  rewrite count_char_app, count_lf_csv_rows by done. reflexivity.
Qed.

Lemma generate_csv_line_count_witness :
  count_char 10
    (generate_csv [(py "200", [py "http://a.example/x,y"; py "www.b.example"]);
                   (py "error", [py "http://c.example"])])
  = 4%nat.
Proof.
  apply (generate_csv_line_count
           [(py "200", [py "http://a.example/x,y"; py "www.b.example"]);
            (py "error", [py "http://c.example"])]).
  unfold single_line. apply (bool_decide_unpack _). by vm_compute.
Defined.

Lemma flat_map_csv_double_quote_inj (f g : pystr) :
  flat_map csv_double_quote f = flat_map csv_double_quote g -> f = g.
Proof.
  revert g. induction f as [|x f IH]; intros [|y g]; cbn [flat_map].
  - done.
  - unfold csv_double_quote. by destruct (y =? csv_quotechar)%N.
  - unfold csv_double_quote. by destruct (x =? csv_quotechar)%N.
  - unfold csv_double_quote at 1 3.
    destruct (N.eqb_spec x csv_quotechar) as [->|Hx],
             (N.eqb_spec y csv_quotechar) as [->|Hy]; cbn [app].
    + intros [= H]. f_equal. by apply IH.
    + intros [= E _]. by destruct Hy.
    + intros [= E _]. by destruct Hx.
    + intros [= -> H]. f_equal. by apply IH.
Qed.

(** X17: the writer never gives two different fields the same text: from
    the text of a field, quoted or not, the field can be told. *)
Theorem csv_field_inj (f g : pystr) : csv_field f = csv_field g -> f = g.
Proof.
  unfold csv_field.
  destruct (existsb csv_special f) eqn:Hf, (existsb csv_special g) eqn:Hg.
  - intros [= H]. apply app_inj_tail in H as [H _].
    by apply flat_map_csv_double_quote_inj.
  - intros <-. cbn [app existsb] in Hg.
    change (csv_special csv_quotechar) with true in Hg. discriminate.
  - intros ->. cbn [app existsb] in Hf.
    change (csv_special csv_quotechar) with true in Hf. discriminate.
  - done.
Qed.

Lemma csv_field_inj_witness : py "a,b" = py "a,b".
Proof. apply csv_field_inj. reflexivity. Defined.

Ltac ascii_literal :=
  unfold json_ascii; apply (bool_decide_unpack _); by vm_compute.

Lemma hex_digit_ascii (d : N) : (d < 16)%N -> json_ascii (hex_digit d).
Proof.
  intros Hd. unfold json_ascii, hex_digit.
  change (ord "0") with 48%N. change (ord "a") with 97%N.
  destruct (N.ltb_spec d 10); lia.
Qed.

Lemma hex4_ascii (n : N) : Forall json_ascii (hex4 n).
Proof.
  unfold hex4. repeat apply Forall_cons_2; [..|constructor];
    apply hex_digit_ascii; apply N.mod_lt; lia.
Qed.

Lemma escape_char_ascii (c : N) : Forall json_ascii (escape_char c).
Proof.
  assert (Forall json_ascii [backslash; ord "u"]) as Hu by ascii_literal.
  unfold escape_char.
  repeat (match goal with
          | |- context [if (c =? ?x)%N then _ else _] => destruct (N.eqb_spec c x)
          end; [ascii_literal|]).
  destruct (N.leb_spec 32 c), (N.leb_spec c 126); simpl andb; cbv iota.
  - apply Forall_cons_2; [unfold json_ascii; lia | constructor].
  - destruct (N.ltb_spec c 0x10000); cbv zeta.
    + apply Forall_app. split; [exact Hu | apply hex4_ascii].
    + apply Forall_app. split; [exact Hu|]. apply Forall_app. split; [apply hex4_ascii|].
      apply Forall_app. split; [exact Hu | apply hex4_ascii].
  - destruct (N.ltb_spec c 0x10000); [|lia].
    apply Forall_app. split; [exact Hu | apply hex4_ascii].
  - lia.
Qed.

Lemma encode_basestring_ascii_is_ascii (s : pystr) :
  Forall json_ascii (encode_basestring_ascii s).
Proof.
  assert (Forall json_ascii [dquote]) as Hq by ascii_literal.
  unfold encode_basestring_ascii.
  apply Forall_app. split; [exact Hq|]. apply Forall_app. split; [|exact Hq].
  induction s as [|c s IH]; [constructor|].
  cbn [flat_map]. apply Forall_app. split; [apply escape_char_ascii | done].
Qed.

Lemma newline_indent_ascii (level : nat) : Forall json_ascii (newline_indent level).
Proof.
  unfold newline_indent. apply Forall_app. split; [ascii_literal|].
  induction level as [|level IH]; [constructor|].
  cbn [replicate concat]. apply Forall_app. split; [ascii_literal | done].
Qed.

Lemma join_ascii (sep : pystr) (l : list pystr) :
  Forall json_ascii sep -> Forall (Forall json_ascii) l ->
  Forall json_ascii (join sep l).
Proof.
  intros Hsep Hl. induction Hl as [|x [|y l] Hx Hl IH]; [constructor|done|].
  change (join sep (x :: y :: l)) with (x ++ sep ++ join sep (y :: l)).
  repeat (apply Forall_app; split); done.
Qed.

Lemma iterencode_list_ascii (lst : list pystr) (level : nat) :
  Forall json_ascii (iterencode_list lst level).
Proof.
  assert (Forall json_ascii (py "[")) as H1 by ascii_literal.
  assert (Forall json_ascii (py "]")) as H2 by ascii_literal.
  assert (Forall json_ascii (py ",")) as H3 by ascii_literal.
  destruct lst as [|x lst]; [ascii_literal|].
  change (iterencode_list (x :: lst) level)
    with (py "[" ++ newline_indent (S level)
          ++ join (py "," ++ newline_indent (S level))
               (encode_basestring_ascii <$> (x :: lst))
          ++ newline_indent level ++ py "]").
  apply Forall_app. split; [exact H1|].
  apply Forall_app. split; [apply newline_indent_ascii|].
  apply Forall_app. split.
  - apply join_ascii.
    + apply Forall_app. split; [exact H3 | apply newline_indent_ascii].
    + apply Forall_fmap, Forall_forall. intros s _.
      apply encode_basestring_ascii_is_ascii.
  - apply Forall_app. split; [apply newline_indent_ascii | exact H2].
Qed.

(** X18: whatever characters the keys and URLs of a report hold, the JSON
    text holds only line feeds and printable ASCII characters: every other
    character is written as an escape. *)
Theorem generate_json_is_ascii (data : dict) : Forall json_ascii (generate_json data).
Proof.
  assert (Forall json_ascii (py "{")) as H1 by ascii_literal.
  assert (Forall json_ascii (py "}")) as H2 by ascii_literal.
  assert (Forall json_ascii (py ",")) as H3 by ascii_literal.
  assert (Forall json_ascii (py ": ")) as H4 by ascii_literal.
  unfold generate_json. destruct data as [|entry data]; [ascii_literal|].
  change (iterencode_dict (entry :: data) 0)
    with (py "{" ++ newline_indent 1
          ++ join (py "," ++ newline_indent 1)
               ((fun '(key, value) =>
                   encode_basestring_ascii key ++ py ": "
                   ++ iterencode_list value 1) <$> (entry :: data))
          ++ newline_indent 0 ++ py "}").
  apply Forall_app. split; [exact H1|].
  apply Forall_app. split; [apply newline_indent_ascii|].
  apply Forall_app. split.
  - apply join_ascii.
    + apply Forall_app. split; [exact H3 | apply newline_indent_ascii].
    + apply Forall_fmap, Forall_forall. intros [key value] _. cbv beta iota.
      apply Forall_app. split; [apply encode_basestring_ascii_is_ascii|].
      apply Forall_app. split; [exact H4 | apply iterencode_list_ascii].
  - apply Forall_app. split; [apply newline_indent_ascii | exact H2].
Qed.

(** ** The request handler *)

Lemma findall_shaped (text : pystr) : Forall url_shaped (findall text).
Proof.
  destruct (findall_pieces (length text) text) as (gap & pieces & _ & -> & _ & H);
    [done|].
  by apply Forall_fmap.
Qed.

Lemma getlist_contains (files : MultiDict) (key : pystr) :
  contains files key = true <-> getlist files key <> [].
Proof.
  unfold contains, getlist, MultiDict in *.
  induction files as [|[k f] files IH]; [done|].
  cbn [existsb]. rewrite filter_cons. simpl.
  destruct (decide (k = key)) as [->|Hne].
  - rewrite bool_decide_eq_true_2 by done. done.
  - rewrite bool_decide_eq_false_2 by done. exact IH.
Qed.

Lemma read_urls_None (files : list FileStorage) :
  read_urls files = None <-> exists file, file ∈ files /\ utf8_decode (content file) = None.
Proof.
  induction files as [|file files IH]; simpl.
  - split; [discriminate | by intros (? & ?%elem_of_nil & _)].
  - destruct (utf8_decode (content file)) as [text|] eqn:E; simpl.
    + destruct (read_urls files) as [urls|]; simpl.
      * split; [discriminate|]. intros (f & [->|Hf]%elem_of_cons & Hn); [congruence|].
        assert (Some urls = None) as H by (apply IH; by exists f).
        discriminate H.
      * split; [|done]. intros _.
        destruct (proj1 IH eq_refl) as (f & Hf & Hn). exists f. split; [by right|done].
    + split; [|done]. intros _. exists file. split; [by left|done].
Qed.

Lemma read_urls_Some (files : list FileStorage) (urls : list pystr) :
  read_urls files = Some urls ->
  exists texts,
    Forall2 (fun file text => utf8_decode (content file) = Some text) files texts /\
    urls = concat (findall <$> texts) /\
    Forall (fun url => url_shaped url /\ text url) urls.
Proof.
  revert urls. induction files as [|file files IH]; intros urls; simpl.
  - intros [= <-]. exists []. by repeat constructor.
  - destruct (utf8_decode (content file)) as [t|] eqn:E; [|discriminate]. simpl.
    destruct (read_urls files) as [urls'|]; [|discriminate]. simpl.
    intros [= <-]. destruct (IH _ eq_refl) as (texts & H1 & -> & H3).
    exists (t :: texts). split; [by constructor|]. split; [done|].
    apply Forall_app. split; [|done].
    apply utf8_decode_text_bounded with (n := length (content file)) in E; [|done].
    pose proof (findall_shaped t) as Hs.
    pose proof (findall_preserves scalar_value t E) as Ht.
    clear -Hs Ht. induction Hs as [|m ms Hm Hms IH]; [constructor|].
    apply Forall_cons in Ht as [Ht1 Ht2]. constructor; [done | by apply IH].
Qed.

Lemma extract_urls_Ok (files : MultiDict) (evs : list event) (body : extraction) :
  extract_urls files evs = Some (Ok body) ->
  exists urls report,
    read_urls (getlist files (py "files")) = Some urls /\
    check_urls (unique_urls urls) evs = Some (Returns report) /\
    body = {| resp_urls := urls; resp_unique_urls := unique_urls urls;
              resp_status_results := report;
              resp_csv_data := generate_csv report;
              resp_json_data := generate_json report |}.
Proof.
  unfold extract_urls.
  destruct (negb (contains files (py "files"))); [discriminate|].
  destruct (_ || _); [discriminate|].
  destruct (read_urls _) as [urls|]; [|discriminate].
  destruct (check_urls (unique_urls urls) evs) as [[report|e]|] eqn:E;
    simpl; try discriminate.
  intros [= <-]. by exists urls, report.
Qed.

(** X19: the handler answers 400 exactly in two cases, and then without
    reading a file or probing a URL, whatever the event loop would do: when
    no file came under the field [files] ([No file uploaded]), and when
    every file under that field has an empty name ([No selected file]).  A
    request that has the field always has at least one file under it, so
    the test for an empty list never decides. *)
Theorem extract_urls_bad_request (files : MultiDict) (evs : list event) (error : pystr) :
  (extract_urls files evs = Some (BadRequest error) <->
   (contains files (py "files") = false /\ error = py "No file uploaded")
   \/ (contains files (py "files") = true /\
       Forall (fun file => filename file = []) (getlist files (py "files")) /\
       error = py "No selected file")) /\
  (contains files (py "files") = true -> getlist files (py "files") <> []).
Proof.
  split; [|by intros ?%getlist_contains].
  unfold extract_urls.
  destruct (contains files (py "files")) eqn:Hc; simpl.
  2:{ split; [intros [= <-]; by left | intros [[_ ->]|[? _]]; done]. }
  set (fs := getlist files (py "files")).
  assert (forallb (fun file => bool_decide (filename file = [])) fs = true
          <-> Forall (fun file => filename file = []) fs) as Hall.
  { rewrite forallb_forall, Forall_forall. split; intros H f Hf.
    - eapply bool_decide_eq_true_1, H. by apply list_elem_of_In.
    - apply bool_decide_eq_true_2, H. by apply list_elem_of_In. }
  destruct (bool_decide (fs = [])) eqn:Hnil; simpl.
  - apply bool_decide_eq_true in Hnil. split.
    + intros [= <-]. right. split; [done|]. split; [|done]. rewrite Hnil. constructor.
    + intros [[? _]|(_ & _ & ->)]; done.
  - destruct (forallb _ fs) eqn:Hf.
    + split; [intros [= <-]; right; split; [done|]; split; [by apply Hall|done]|].
      intros [[? _]|(_ & _ & ->)]; done.
    + split.
      * destruct (read_urls fs); [|discriminate].
        destruct (check_urls _ evs) as [[?|?]|]; simpl; discriminate.
      * intros [[? _]|(_ & H & _)]; [done|]. apply Hall in H. congruence.
Qed.

(** X20: every file under the field is decoded, named or not: once a
    request has passed the two checks, one file that is not valid UTF-8
    makes the handler raise [UnicodeDecodeError], and it does so before
    any URL is probed. *)
Theorem extract_urls_decode_error (files : MultiDict) (evs : list event) (file : FileStorage) :
  contains files (py "files") = true ->
  (exists named, named ∈ getlist files (py "files") /\ filename named <> []) ->
  file ∈ getlist files (py "files") -> utf8_decode (content file) = None ->
  extract_urls files evs = Some UnicodeDecodeError.
Proof.
  intros Hc (named & Hnamed & Hname) Hfile Hdec. unfold extract_urls.
  rewrite Hc. simpl. set (fs := getlist files (py "files")) in *.
  rewrite bool_decide_eq_false_2 by (intros E; rewrite E in Hfile; by apply elem_of_nil in Hfile).
  simpl.
  assert (forallb (fun file => bool_decide (filename file = [])) fs = false) as ->.
  { apply not_true_is_false. rewrite forallb_forall. intros H.
    apply Hname. eapply bool_decide_eq_true_1, H. by apply list_elem_of_In. }
  assert (read_urls fs = None) as -> by (apply read_urls_None; by exists file).
  done.
Qed.

Lemma extract_urls_decode_error_witness :
  extract_urls [(py "files", mk_file (py "a.txt") (py "http://a.example"));
                (py "files", mk_file [] [0xff%N])] []
  = Some UnicodeDecodeError.
Proof.
  apply (extract_urls_decode_error _ [] (mk_file [] [0xff%N])).
  - reflexivity.
  - exists (mk_file (py "a.txt") (py "http://a.example")). split; [|discriminate].
    change (getlist _ _) with [mk_file (py "a.txt") (py "http://a.example");
                               mk_file [] [0xff%N]].
    by left.
  - change (getlist _ _) with [mk_file (py "a.txt") (py "http://a.example");
                               mk_file [] [0xff%N]].
    right. by left.
  - reflexivity.
Defined.

(** The JSON text of a report of text with distinct keys is read back as
    the report. *)
Lemma loads_generate_json (data : dict) :
  NoDup data.*1 -> report_text data ->
  json_loads (generate_json data) = Some (value_of_report data).
Proof.
  intros Hnd Htext. destruct data as [|[key value] dct]; [reflexivity|].
  set (data := (key, value) :: dct) in *. unfold json_loads.
  assert (skip_ws (generate_json data) = generate_json data) as ->.
  { change (generate_json data)
      with (ord "{" :: (newline_indent 1 ++ members data 0
                        ++ newline_indent 0 ++ py "}")).
    by apply skip_ws_stop. }
  assert (length data + length (concat data.*2) + 4
          <= S (length (generate_json data)))%nat as Hfuel.
  { assert (data <> []) as Hne by done.
    pose proof (length_generate_json data Hne). lia. }
  rewrite <- (app_nil_r (generate_json data)) at 2.
  unfold generate_json at 2. rewrite scan_once_dict by done.
  cbn [mbind option_bind skip_ws]. f_equal. by apply build_report.
Qed.

Lemma Forall_concat_2 {A : Type} (P : A -> Prop) (ls : list (list A)) :
  Forall P (concat ls) -> Forall (Forall P) ls.
Proof.
  induction ls as [|l ls IH]; [constructor|].
  cbn [concat]. intros [H1 H2]%Forall_app. constructor; [done | by apply IH].
Qed.

Lemma Forall_entries {P : pystr -> Prop} {Q : list pystr -> Prop} (data : dict) :
  Forall P data.*1 -> Forall Q data.*2 ->
  Forall (fun entry => P entry.1 /\ Q entry.2) data.
Proof.
  induction data as [|[k v] data IH]; [constructor|].
  rewrite !fmap_cons. intros [H1 H2]%Forall_cons [H3 H4]%Forall_cons.
  constructor; [done | by apply IH].
Qed.

(** What a response with status 200 holds. *)
Lemma extract_urls_Ok_facts (files : MultiDict) (evs : list event) (body : extraction) :
  extract_urls files evs = Some (Ok body) ->
  Forall (fun url => url_shaped url /\ text url) (resp_urls body) /\
  resp_unique_urls body = unique_urls (resp_urls body) /\
  (resp_status_results body).*1 = bucket_keys /\
  concat (resp_status_results body).*2 ≡ₚ resp_unique_urls body /\
  resp_csv_data body = generate_csv (resp_status_results body) /\
  resp_json_data body = generate_json (resp_status_results body).
Proof.
  intros (urls & report & Hread & Hcheck & ->)%extract_urls_Ok. simpl.
  apply read_urls_Some in Hread as (texts & _ & _ & Hurls).
  apply check_urls_returns in Hcheck as (s & results & Hrun & Hg & Hagg).
  destruct (aggregate_total results) as (report' & H1 & H2 & H3).
  assert (report' = report) as -> by congruence.
  pose proof (invariant_run _ evs 0 _ _ (invariant_start _) Hrun) as [_ Ht _ _ _].
  apply gather_Returns in Hg. rewrite Hg in Ht. apply task_for_returned in Ht.
  rewrite Ht in H3. done.
Qed.

(** X21: in a response with status 200, [urls] holds the matches of the
    pattern in the decoded files, file after file, each of them shaped like
    a URL; [unique_urls] holds the same URLs once each; and the buckets of
    [status_results], under the six keys, hold exactly the URLs of
    [unique_urls], each in one bucket. *)
Theorem extract_urls_accounts_for_every_url (files : MultiDict) (evs : list event)
    (body : extraction) :
  extract_urls files evs = Some (Ok body) ->
  (exists texts,
     Forall2 (fun file text => utf8_decode (content file) = Some text)
       (getlist files (py "files")) texts /\
     resp_urls body = concat (findall <$> texts)) /\
  Forall url_shaped (resp_urls body) /\
  NoDup (resp_unique_urls body) /\
  (forall url, url ∈ resp_unique_urls body <-> url ∈ resp_urls body) /\
  (resp_status_results body).*1 = bucket_keys /\
  concat (resp_status_results body).*2 ≡ₚ resp_unique_urls body /\
  NoDup (concat (resp_status_results body).*2).
Proof.
  intros Hok.
  destruct (extract_urls_Ok_facts _ _ _ Hok) as (Hurls & Huniq & Hkeys & Hperm & _ & _).
  apply extract_urls_Ok in Hok as (urls & report & Hread & _ & ->). simpl in *.
  apply read_urls_Some in Hread as (texts & Hdec & Hcat & _).
  split; [by exists texts|].
  split; [eapply Forall_impl; [exact Hurls|]; by intros ? [? ?]|].
  split; [apply NoDup_unique_urls|]. split; [apply elem_of_unique_urls|].
  split; [done|]. split; [done|]. rewrite Hperm. apply NoDup_unique_urls.
Qed.

(** X22: in a response with status 200, [json_data] is read back by
    [json.loads] as [status_results] itself. *)
Theorem extract_urls_json_data_reads_back (files : MultiDict) (evs : list event)
    (body : extraction) :
  extract_urls files evs = Some (Ok body) ->
  json_loads (resp_json_data body) = Some (value_of_report (resp_status_results body)).
Proof.
  intros Hok.
  destruct (extract_urls_Ok_facts _ _ _ Hok) as (Hurls & Huniq & Hkeys & Hperm & _ & ->).
  apply loads_generate_json.
  - rewrite Hkeys. apply bucket_keys_NoDup.
  - apply Forall_entries.
    + rewrite Hkeys. unfold text, scalar_value.
      apply (bool_decide_unpack _). by vm_compute.
    + apply Forall_concat_2. rewrite Hperm, Huniq.
      apply Forall_forall. intros url Hu.
      apply (proj1 (elem_of_unique_urls _ _)) in Hu.
      rewrite Forall_forall in Hurls. by apply Hurls.
Qed.

Lemma url_char_not_lf (url : pystr) :
  Forall (fun c => url_char c = true) url -> 10%N ∉ url.
Proof.
  intros H Hin. rewrite Forall_forall in H. by specialize (H _ Hin).
Qed.

(** X23: in a response with status 200, [csv_data] has exactly one line
    per URL of [unique_urls] after the header line. *)
Theorem extract_urls_csv_data_lines (files : MultiDict) (evs : list event)
    (body : extraction) :
  extract_urls files evs = Some (Ok body) ->
  count_char 10 (resp_csv_data body) = S (length (resp_unique_urls body)).
Proof.
  intros Hok.
  destruct (extract_urls_Ok_facts _ _ _ Hok) as (Hurls & Huniq & Hkeys & Hperm & -> & _).
  unfold generate_csv. rewrite writerow_buckets, count_char_app, count_lf_csv_rows.
  - by rewrite Hperm.
  - apply (@Forall_entries (fun key => 10%N ∉ key)
             (Forall (fun url : pystr => 10%N ∉ url))).
    + rewrite Hkeys. apply (bool_decide_unpack _). by vm_compute.
    + apply Forall_concat_2. rewrite Hperm, Huniq.
      apply Forall_forall. intros url Hu.
      apply (proj1 (elem_of_unique_urls _ _)) in Hu.
      rewrite Forall_forall in Hurls. destruct (Hurls _ Hu) as [Hs _].
      apply url_char_not_lf. by apply url_shaped_chars.
Qed.

Lemma example_answer :
  extract_urls example_upload example_schedule = Some (Ok example_body).
Proof. vm_compute. reflexivity. Qed.

Lemma extract_urls_accounts_for_every_url_witness :
  NoDup (resp_unique_urls example_body) /\
  concat (resp_status_results example_body).*2 ≡ₚ resp_unique_urls example_body.
Proof.
  destruct (extract_urls_accounts_for_every_url example_upload example_schedule
              example_body example_answer) as (_ & _ & H1 & _ & _ & H2 & _).
  split; [exact H1 | exact H2].
Defined.

Lemma extract_urls_json_data_reads_back_witness :
  json_loads (resp_json_data example_body)
  = Some (value_of_report (resp_status_results example_body)).
Proof.
  exact (extract_urls_json_data_reads_back example_upload example_schedule
           example_body example_answer).
Defined.

Lemma extract_urls_csv_data_lines_witness :
  count_char 10 (resp_csv_data example_body) = 2%nat.
Proof.
  exact (extract_urls_csv_data_lines example_upload example_schedule
           example_body example_answer).
Defined.
